(** * minimega: VNC playback engine and the VM search matcher

    A shallow embedding of [src/vnc/playback.go] (the playback session, its
    control surface, the script interpreter [playFile] and the synchronizer
    [waitForIt]) and of [ExpressionTree.match] from the web front end's
    search filter, followed by the properties established about them. *)

From Stdlib Require Import ZArith List String Ascii Bool Lia.
Import ListNotations.
Open Scope string_scope.
Open Scope Z_scope.

(** ** Text helpers shared by both embeddings *)

Module Text.

(** [strings.HasPrefix s p] / a prefix test. *)
Definition HasPrefix (s p : string) : bool := String.prefix p s.

(** [s.includes(t)] in JavaScript, [strings.Contains] in Go. *)
Fixpoint includes (s t : string) : bool :=
  if String.prefix t s then true
  else match s with
       | EmptyString => false
       | String _ s' => includes s' t
       end.

Definition lower_ascii (c : ascii) : ascii :=
  let n := nat_of_ascii c in
  if andb (Nat.leb 65 n) (Nat.leb n 90) then ascii_of_nat (n + 32) else c.

(** [toLowerCase] on strings of ASCII characters. *)
Fixpoint toLowerCase (s : string) : string :=
  match s with
  | EmptyString => EmptyString
  | String c s' => String (lower_ascii c) (toLowerCase s')
  end.

Definition is_space (c : ascii) : bool :=
  let n := nat_of_ascii c in
  orb (Nat.eqb n 32) (andb (Nat.leb 9 n) (Nat.leb n 13)).

Fixpoint trimStart (s : string) : string :=
  match s with
  | String c s' => if is_space c then trimStart s' else s
  | EmptyString => EmptyString
  end.

Fixpoint trimEnd (s : string) : string :=
  match s with
  | EmptyString => EmptyString
  | String c s' =>
      match trimEnd s' with
      | EmptyString => if is_space c then EmptyString else String c EmptyString
      | t => String c t
      end
  end.

Definition trim (s : string) : string := trimEnd (trimStart s).

(** [s.replace(/[\[\]]/g, "")]: every square bracket is removed. *)
Fixpoint stripBrackets (s : string) : string :=
  match s with
  | EmptyString => EmptyString
  | String c s' =>
      if orb (Ascii.eqb c "[") (Ascii.eqb c "]") then stripBrackets s'
      else String c (stripBrackets s')
  end.

(** [s.split(sep)] for a one-character separator: always at least one
    piece, and [n] separators give [n + 1] pieces. *)
Fixpoint split (sep : ascii) (s : string) : list string :=
  match s with
  | EmptyString => [EmptyString]
  | String c s' =>
      if Ascii.eqb c sep then EmptyString :: split sep s'
      else match split sep s' with
           | [] => [String c EmptyString]
           | p :: ps => String c p :: ps
           end
  end.

(** [strings.SplitN(s, sep, 2)] for a one-character separator: the text is
    cut at the first separator only; without one the text comes back as
    the single piece. *)
Fixpoint SplitN2 (sep : ascii) (s : string) : list string :=
  match s with
  | EmptyString => [EmptyString]
  | String c s' =>
      if Ascii.eqb c sep then [EmptyString; s']
      else match SplitN2 sep s' with
           | [p] => [String c p]
           | [p; q] => [String c p; q]
           | other => other
           end
  end.

End Text.

(** ** The search matcher ([ExpressionTree.match]) *)

Module Search.
Import Text.

(** The fields of a VM row that [match] reads. *)
Record VM := {
  name : string;
  host : string;
  tags : string;
  disk : string;
  vlan : string;
  ip : string;
  state : string;
  busy : bool;
  captures : list string;
  DoNotBoot : bool
}.

Definition defaultSearchFields : list string := ["Name"; "Vlans"; "Host"; "Tags"].

Section Match.

(** The [IPV4] helper class is declared outside the file: [setAddress]
    leaves [address] undefined ([None]) on text that is no network, and
    [contains] tests membership of an address. *)
Variable IPV4 : Type.
Variable setAddress : string -> option IPV4.
Variable contains : IPV4 -> string -> bool.

(** What executing the switch for one field does with the loop:
    [Some b] is [return b], [None] goes on to the next field ([continue],
    or leaving the switch at its end). *)
Definition caseHost (vm : VM) (term : string) : option bool :=
  if includes (toLowerCase (host vm)) term then Some true else None.

Definition caseName (vm : VM) (term : string) : option bool :=
  if includes (toLowerCase (name vm)) term then Some true
  else (* no [continue] and no [break]: control runs into [case "Host"] *)
    caseHost vm term.

Definition match_field (field : string) (vm : VM) (term : string) : option bool :=
  if String.eqb field "IPv4" then
    match setAddress term with
    | None => None
    | Some refNet =>
        if existsb (fun network => contains refNet (trim network))
                   (split "," (stripBrackets (ip vm)))
        then Some true else None
    end
  else if String.eqb field "State" then
    if orb (String.eqb term "shutdown") (String.eqb term "quit")
    then Some (String.eqb (toLowerCase (state vm)) "quit")
    else Some (String.eqb (toLowerCase (state vm)) term)
  else if String.eqb field "Busy" then Some (busy vm)
  else if String.eqb field "Captures" then Some (Nat.ltb 0 (List.length (captures vm)))
  else if String.eqb field "DoNotBoot" then Some (DoNotBoot vm)
  else if String.eqb field "Vlans" then
    if existsb (fun v => includes (trim (toLowerCase v)) term)
               (split "," (stripBrackets (vlan vm)))
    then Some true else None
  else if String.eqb field "Name" then caseName vm term
  else if String.eqb field "Host" then caseHost vm term
  else if String.eqb field "Tags" then
    if includes (toLowerCase (tags vm)) term then Some true else None
  else if String.eqb field "Disk" then
    if includes (toLowerCase (disk vm)) term then Some true else None
  else None.

(** The [for ... of Object.entries(this.searchFields)] loop; [return false]
    once the fields are exhausted. *)
Fixpoint match_ (searchFields : list string) (vm : VM) (term : string) : bool :=
  match searchFields with
  | [] => false
  | field :: rest =>
      match match_field field vm term with
      | Some b => b
      | None => match_ rest vm term
      end
  end.

End Match.

End Search.

(** ** Go runtime pieces used by the playback engine *)

Module Go.
Import Text.

(** [int], [int64] and [time.Duration] are 64-bit two's-complement. *)
Definition wrap64 (z : Z) : Z := (z + 2 ^ 63) mod 2 ^ 64 - 2 ^ 63.
Definition maxInt64 : Z := 2 ^ 63 - 1.
Definition minInt64 : Z := - 2 ^ 63.

Definition add64 (a b : Z) : Z := wrap64 (a + b).
Definition sub64 (a b : Z) : Z := wrap64 (a - b).
Definition neg64 (a : Z) : Z := wrap64 (- a).

(** [error] values are identified by their message. *)
Definition error := string.

(** A call either returns or panics. *)
Inductive outcome (A : Type) : Type :=
| Returns (a : A)
| Panics.
Arguments Returns {A} a.
Arguments Panics {A}.

End Go.

(** Package [time]: durations are nanosecond counts; an instant is a
    nanosecond reading of the monotonic clock. *)
Module time.
Import Go.

Definition Duration := Z.
Definition Time := Z.
Definition Nanosecond : Duration := 1.
Definition Second : Duration := 1000000000.

(** [t.Sub(u)]: the difference, saturated to the range of [Duration]. *)
Definition Sub (t u : Time) : Duration :=
  let d := t - u in
  if d <? minInt64 then minInt64
  else if maxInt64 <? d then maxInt64
  else d.

End time.

(** Package [path/filepath] with [/] as the separator. *)
Module filepath.
Import Text.

Definition IsAbs (path : string) : bool := HasPrefix path "/".

Definition is_dot (p : string) : bool := orb (String.eqb p "") (String.eqb p ".").

(** The elements of a path are processed left to right; [acc] holds the
    elements kept so far, last one first. *)
Fixpoint clean_parts (rooted : bool) (parts acc : list string) : list string :=
  match parts with
  | [] => rev acc
  | p :: ps =>
      if is_dot p then clean_parts rooted ps acc
      else if String.eqb p ".." then
        match acc with
        | a :: acc' =>
            if String.eqb a ".." then clean_parts rooted ps (p :: acc)
            else clean_parts rooted ps acc'
        | [] =>
            if rooted then clean_parts rooted ps []
            else clean_parts rooted ps [p]
        end
      else clean_parts rooted ps (p :: acc)
  end.

Definition Clean (path : string) : string :=
  if String.eqb path "" then "."
  else
    let rooted := IsAbs path in
    let body := String.concat "/" (clean_parts rooted (split "/" path) []) in
    if rooted then "/" ++ body
    else if String.eqb body "" then "." else body.

(** The part of [path] up to and including its last separator. *)
Fixpoint uptoLastSlash (path : string) : string :=
  match path with
  | EmptyString => EmptyString
  | String c rest =>
      let r := uptoLastSlash rest in
      if orb (Ascii.eqb c "/") (negb (String.eqb r "")) then String c r
      else EmptyString
  end.

Definition Dir (path : string) : string := Clean (uptoLastSlash path).

(** [Join(a, b)]: leading empty elements are ignored, the rest is joined
    with the separator and cleaned. *)
Definition Join (a b : string) : string :=
  if negb (String.eqb a "") then Clean (a ++ "/" ++ b)
  else if negb (String.eqb b "") then Clean b
  else "".

End filepath.

(** ** The playback session ([src/vnc/playback.go]) *)

Module vnc.
Import Text Go.

(** The [Control] constants used for signals and for the playback state. *)
Inductive Control := Play | Pause | Step | LoadFile | WaitForIt.

Definition Control_eqb (a b : Control) : bool :=
  match a, b with
  | Play, Play | Pause, Pause | Step, Step
  | LoadFile, LoadFile | WaitForIt, WaitForIt => true
  | _, _ => false
  end.

(** A wire event: an opaque payload that is written to the connection. *)
Inductive Event := WireEvent (payload : string).

Record LoadFileEvent := { File : string }.
(** [WaitForItEvent] has a [File] field of its own (the reference image);
    it is [WFile] here, next to [LoadFileEvent]'s [File]. *)
Record WaitForItEvent := { WFile : string; Timeout : Z }.

(** A value held in an [interface{}], by its dynamic type: something that
    implements [Event], a [*LoadFileEvent], a [LoadFileEvent] (not a
    pointer), a [*WaitForItEvent], anything else, or nil. *)
Inductive value :=
| VEvent (e : Event)
| VLoadFilePtr (e : LoadFileEvent)
| VLoadFileVal (e : LoadFileEvent)
| VWaitForItPtr (e : WaitForItEvent)
| VOther (description : string)
| VNil.

(** [parseEvent] returns [(interface{}, error)]. *)
Inductive parsed :=
| Parsed (v : value)
| ParseError (err : error).

Record signal := { kind : Control; data : value }.

(** An open [*os.File]: the name it was opened under and the lines a
    [bufio.Scanner] reads from it. *)
Record osFile := { Name : string; content : list string }.

(** The fields of [playback] below the mutex, the identifiers, and whether
    the [signal] channel has been closed. *)
Record playback := {
  ID : string;
  rhost : string;
  signalClosed : bool;
  depth : Z;
  duration : time.Duration;
  e : string;
  state : Control;
  closed : bool;
  file : option osFile;
  err : option error
}.

Definition set_depth (d : Z) (p : playback) : playback :=
  {| ID := ID p; rhost := rhost p; signalClosed := signalClosed p; depth := d;
     duration := duration p; e := e p; state := state p; closed := closed p;
     file := file p; err := err p |}.

Definition set_duration (d : time.Duration) (p : playback) : playback :=
  {| ID := ID p; rhost := rhost p; signalClosed := signalClosed p; depth := depth p;
     duration := d; e := e p; state := state p; closed := closed p;
     file := file p; err := err p |}.

Definition set_e (s : string) (p : playback) : playback :=
  {| ID := ID p; rhost := rhost p; signalClosed := signalClosed p; depth := depth p;
     duration := duration p; e := s; state := state p; closed := closed p;
     file := file p; err := err p |}.

Definition set_state (c : Control) (p : playback) : playback :=
  {| ID := ID p; rhost := rhost p; signalClosed := signalClosed p; depth := depth p;
     duration := duration p; e := e p; state := c; closed := closed p;
     file := file p; err := err p |}.

Definition set_file (f : option osFile) (p : playback) : playback :=
  {| ID := ID p; rhost := rhost p; signalClosed := signalClosed p; depth := depth p;
     duration := duration p; e := e p; state := state p; closed := closed p;
     file := f; err := err p |}.

(** [close(p.signal); p.closed = true] *)
Definition set_stopped (p : playback) : playback :=
  {| ID := ID p; rhost := rhost p; signalClosed := true; depth := depth p;
     duration := duration p; e := e p; state := state p; closed := true;
     file := file p; err := err p |}.

(** [newPlayback], once [Dial] has succeeded. *)
Definition newPlayback (id rhost : string) : playback :=
  {| ID := id; rhost := rhost; signalClosed := false; depth := 0; duration := 0;
     e := ""; state := Play; closed := false; file := None; err := None |}.

(** What a control operation sends while it holds the lock: a signal on
    [p.signal] or an event on [p.out]. *)
Inductive sent :=
| SentSignal (s : signal)
| SentOut (ev : Event).

(** *** The control surface *)

Definition Closed (p : playback) : bool := closed p.

Section Surface.

(** [time.Duration.String], used by [Info] through [%v]. *)
Variable Duration_String : time.Duration -> string.

(** [parseEvent] is defined in another file of the package. *)
Variable parseEvent : string -> parsed.

(** [Info]: nil once closed; [p.file.Name()] dereferences [p.file]. *)
Definition Info (p : playback) : outcome (option (list string)) :=
  if closed p then Returns None
  else
    let res := [ID p; "playback kb"] in
    let res :=
      if Control_eqb (state p) Pause then (res ++ ["PAUSED"])%list
      else (res ++ [String.append (Duration_String (duration p)) " remaining"])%list in
    match file p with
    | None => Panics
    | Some f => Returns (Some (res ++ [Name f])%list)
    end.

(** The operations below return the error, the session afterwards and what
    was sent on the channels. *)
Definition Step_ (p : playback) : option error * playback * list sent :=
  if orb (negb (Control_eqb (state p) Play)) (closed p)
  then (Some "playback not stepable", p, [])
  else (None, p, [SentSignal {| kind := Step; data := VNil |}]).

Definition Pause_ (p : playback) : option error * playback * list sent :=
  if orb (negb (Control_eqb (state p) Play)) (closed p)
  then (Some "playback not pauseable", p, [])
  else (None, set_state Pause p, [SentSignal {| kind := Pause; data := VNil |}]).

Definition Continue (p : playback) : option error * playback * list sent :=
  if orb (negb (Control_eqb (state p) Pause)) (closed p)
  then (Some "playback not playable", p, [])
  else (None, set_state Play p, [SentSignal {| kind := Play; data := VNil |}]).

Definition Stop (p : playback) : option error * playback * list sent :=
  if closed p then (Some "playback has already stopped", p, [])
  else (None, set_stopped p, []).

Definition Inject (cmd : string) (p : playback) : option error * playback * list sent :=
  if closed p then (Some "playback has already stopped", p, [])
  else
    match parseEvent cmd with
    | ParseError err => (Some err, p, [])
    | Parsed (VEvent event) => (None, p, [SentOut event])
    | Parsed (VLoadFilePtr ev) =>
        (None, p, [SentSignal {| kind := LoadFile; data := VLoadFilePtr ev |}])
    | Parsed (VWaitForItPtr ev) =>
        (None, p, [SentSignal {| kind := WaitForIt; data := VWaitForItPtr ev |}])
    | Parsed (VLoadFileVal _) => (Some "unknown event: LoadFileEvent", p, [])
    | Parsed (VOther d) => (Some ("unknown event: " ++ d), p, [])
    | Parsed VNil => (Some "unknown event: <nil>", p, [])
    end.

Definition GetStep (p : playback) : string * option error :=
  if closed p then ("", Some "playback has already stopped")
  else (e p, None).

End Surface.

(** *** The setters used by the interpreter *)

Definition setFile (f : osFile) (p : playback) : option osFile * option error * playback :=
  let p := set_depth (add64 (depth p) 1) p in
  (* depth > 10 only logs a warning *)
  if 100 <? depth p then (None, Some "too many recursive LoadFiles", p)
  else (file p, None, set_file (Some f) p).

Definition resetFile (old : option osFile) (p : playback) : playback :=
  set_file old (set_depth (sub64 (depth p) 1) p).

Definition setStep (s : string) (p : playback) : playback := set_e s p.

Definition addDuration (d : time.Duration) (p : playback) : playback :=
  set_duration (add64 (duration p) d) p.

(** *** The world the interpreter runs in *)

(** The operators' calls on the control surface, each at the time it is
    made. *)
Inductive call :=
| CallStep
| CallPause
| CallContinue
| CallStop
| CallInject (cmd : string).

(** What becomes of a frame the synchronizer receives: [os.Create] and
    [png.Encode] can each fail. *)
Inductive saving :=
| Saved
| CreateFails (msg : string)
| EncodeFails (msg : string).

(** What the run leaves behind, each with its time. *)
Inductive obs :=
| Opened (name : string)
| ClosedFile (name : string)
| Out (ev : Event)
| FbRequest
| Created (i : Z)
| Slept (d : time.Duration).

(** The session, the clock, the calls still to come and the frames the
    listener will offer on [p.screenshots] (both in time order), the
    results of the [FramebufferUpdateRequest] writes still to come (none
    left: the write succeeds), and the trace so far, latest first. *)
Record world := {
  pb : playback;
  now : time.Time;
  calls : list (time.Time * call);
  frames : list (time.Time * saving);
  fbWrites : list (option error);
  trace : list (time.Time * obs)
}.

Definition set_pb (p : playback) (w : world) : world :=
  {| pb := p; now := now w; calls := calls w; frames := frames w;
     fbWrites := fbWrites w; trace := trace w |}.

Definition set_now (t : time.Time) (w : world) : world :=
  {| pb := pb w; now := t; calls := calls w; frames := frames w;
     fbWrites := fbWrites w; trace := trace w |}.

Definition set_calls (cs : list (time.Time * call)) (w : world) : world :=
  {| pb := pb w; now := now w; calls := cs; frames := frames w;
     fbWrites := fbWrites w; trace := trace w |}.

Definition set_frames (fs : list (time.Time * saving)) (w : world) : world :=
  {| pb := pb w; now := now w; calls := calls w; frames := fs;
     fbWrites := fbWrites w; trace := trace w |}.

Definition set_fbWrites (l : list (option error)) (w : world) : world :=
  {| pb := pb w; now := now w; calls := calls w; frames := frames w;
     fbWrites := l; trace := trace w |}.

Definition record (o : obs) (w : world) : world :=
  {| pb := pb w; now := now w; calls := calls w; frames := frames w;
     fbWrites := fbWrites w; trace := (now w, o) :: trace w |}.

Definition on_pb (f : playback -> playback) (w : world) : world :=
  set_pb (f (pb w)) w.

(** How a call of [playFile] or [waitForIt] ends: it returns (an error or
    nil), it panics, it waits for a signal nobody will send, or the model
    ran out of steps. *)
Inductive result :=
| Returned (err : option error) (w : world)
| Panicked (w : world)
| Blocked (w : world)
| OutOfFuel.

(** How a receive on [v.signal] ends, alone or raced against a timer. *)
Inductive selected :=
| TimerFired (w : world)
| GotSignal (sig : signal) (w : world)
| SawClosed (w : world)
| NoSender (w : world).

(** *** The interpreter *)

Section Interpreter.

(** The script files on disk, by the path they are opened under. *)
Variable disk : string -> option (list string).

(** [parseEvent] and [getDuration] are defined in other files of the
    package; [time.ParseDuration] is the standard library's. *)
Variable parseEvent : string -> parsed.
Variable getDuration : osFile -> time.Duration.
Variable ParseDuration : string -> option time.Duration.

Definition os_Open (filename : string) : option osFile :=
  match disk filename with
  | Some lines => Some {| Name := filename; content := lines |}
  | None => None
  end.

Definition perform (c : call) (p : playback) : option error * playback * list sent :=
  match c with
  | CallStep => Step_ p
  | CallPause => Pause_ p
  | CallContinue => Continue p
  | CallStop => Stop p
  | CallInject cmd => Inject parseEvent cmd p
  end.

(** A receive on [v.signal], raced against a timer that fires at
    [deadline] when there is one. The calls made before the deadline are
    performed in order: one that sends a signal completes the receive, one
    that closes the channel is seen as closure, an injected wire event goes
    to [p.out], a call that fails sends nothing. A receive on the closed
    channel completes at once. *)
Fixpoint await (deadline : option time.Time) (cs : list (time.Time * call))
    (w : world) : selected :=
  if signalClosed (pb w) then SawClosed (set_calls cs w)
  else
    match cs with
    | [] =>
        match deadline with
        | Some t => TimerFired (set_calls [] (set_now t w))
        | None => NoSender (set_calls [] w)
        end
    | (at_, c) :: rest =>
        let due := match deadline with Some t => at_ <? t | None => true end in
        if due then
          let w := set_now (Z.max (now w) at_) w in
          let '(_, p, out) := perform c (pb w) in
          let w := set_pb p w in
          match out with
          | SentSignal sig :: _ => GotSignal sig (set_calls rest w)
          | SentOut ev :: _ => await deadline rest (record (Out ev) w)
          | [] => await deadline rest w
          end
        else
          match deadline with
          | Some t => TimerFired (set_calls cs (set_now t w))
          | None => NoSender (set_calls cs w)
          end
    end.

(** [select { case <-time.After(d): ...; case sig, ok := <-v.signal: ... }] *)
Definition select_signal (d : time.Duration) (w : world) : selected :=
  await (Some (now w + Z.max 0 d)) (calls w) w.

(** [sig, ok := <-v.signal] *)
Definition receive_signal (w : world) : selected :=
  await None (calls w) w.

(** The listener's send on [p.screenshots] does not block: a frame offered
    before the synchronizer started to receive was dropped. The first frame
    offered from [start] on and before [deadline] is received. *)
Fixpoint awaitFrame (start deadline : time.Time) (fs : list (time.Time * saving))
    : option (time.Time * saving) * list (time.Time * saving) :=
  match fs with
  | [] => (None, [])
  | (at_, io) :: rest =>
      if at_ <? start then awaitFrame start deadline rest
      else if at_ <? deadline then (Some (at_, io), rest)
      else (None, fs)
  end.

(** [fb.Write(p.Conn)] *)
Definition fbWrite (w : world) : option error * world :=
  match fbWrites w with
  | [] => (None, record FbRequest w)
  | None :: rest => (None, record FbRequest (set_fbWrites rest w))
  | Some err :: rest => (Some err, set_fbWrites rest w)
  end.

Definition sleep (d : time.Duration) (w : world) : world :=
  record (Slept d) (set_now (now w + Z.max 0 d) w).

Definition timeoutError (ev : WaitForItEvent) : error :=
  String.append "timeout waiting for " (WFile ev).

(** The [for timeout > 0] loop of [waitForIt]. *)
Fixpoint waitForIt_loop (fuel : nat) (ev : WaitForItEvent) (timeout : time.Duration)
    (i : Z) (w : world) : result :=
  if 0 <? timeout then
    match fuel with
    | O => OutOfFuel
    | S fuel =>
        match fbWrite w with
        | (Some err, w) => Returned (Some err) w
        | (None, w) =>
            let start := now w in
            match awaitFrame start (start + timeout) (frames w) with
            | (Some (at_, io), rest) =>
                let w := set_frames rest (set_now at_ w) in
                let waited := time.Sub (now w) start in
                let timeout := sub64 timeout waited in
                match io with
                | CreateFails msg =>
                    Returned (Some (String.append "screenshot failed to write: " msg)) w
                | EncodeFails msg =>
                    Returned (Some (String.append "unable to encode screenshot: " msg))
                             (record (Created i) w)
                | Saved =>
                    let w := record (Created i) w in
                    let i := add64 i 1 in
                    let w := sleep time.Second w in
                    waitForIt_loop fuel ev (sub64 timeout time.Second) i w
                end
            | (None, rest) =>
                Returned (Some (timeoutError ev))
                         (set_frames rest (set_now (start + timeout) w))
            end
        end
    end
  else Returned (Some (timeoutError ev)) w.

Definition waitForIt (fuel : nat) (ev : WaitForItEvent) (w : world) : result :=
  waitForIt_loop fuel ev (wrap64 (wrap64 (Timeout ev) * time.Nanosecond)) 0 w.

(** How the wait before a directive ends: control reaches the [Event]
    label, or [playFile] is left. *)
Inductive waitEnd :=
| ToEvent (w : world)
| Leave (r : result).

(** The first lines of [playFile]: a relative name is joined to the
    directory of the parent's name when there is a parent. *)
Definition resolve (parent : option osFile) (filename : string) : string :=
  match parent with
  | Some par =>
      if negb (filepath.IsAbs filename)
      then filepath.Join (filepath.Dir (Name par)) filename
      else filename
  | None => filename
  end.

(** The [for { select ... }] loop that waits [duration] before the
    directive of the line; [rec] is [playFile] for the nested files and
    [f] is the file being read. *)
Fixpoint waitLoop (rec : option osFile -> string -> world -> result) (fuel : nat)
    (f : osFile) (duration : time.Duration) (w : world) : waitEnd :=
  match fuel with
  | O => Leave OutOfFuel
  | S fuel =>
      let start := now w in
      match select_signal duration w with
      | TimerFired w => ToEvent (on_pb (addDuration (neg64 duration)) w)
      | SawClosed w => Leave (Returned None w)
      | NoSender w => Leave (Blocked w)
      | GotSignal sig w =>
          let waited := time.Sub start (now w) in
          let w := on_pb (addDuration (neg64 waited)) w in
          let duration := sub64 duration waited in
          match kind sig with
          | Pause =>
              match receive_signal w with
              | SawClosed w => Leave (Returned None w)
              | GotSignal _ w => waitLoop rec fuel f duration w
              | NoSender w => Leave (Blocked w)
              | TimerFired w => Leave (Blocked w)
              end
          | LoadFile =>
              match data sig with
              | VLoadFileVal ev =>
                  match rec (Some f) (File ev) w with
                  | Returned None w => waitLoop rec fuel f duration w
                  | r => Leave r
                  end
              | _ => Leave (Panicked w)
              end
          | WaitForIt =>
              match data sig with
              | VWaitForItPtr ev =>
                  match waitForIt fuel ev w with
                  | Returned None w => waitLoop rec fuel f duration w
                  | r => Leave r
                  end
              | _ => Leave (Panicked w)
              end
          | Step => ToEvent (on_pb (addDuration (neg64 duration)) w)
          | Play => waitLoop rec fuel f duration w
          end
      end
  end.

(** The [Event] label: what is done with the directive of the line. [None]
    goes on to the next line. *)
Definition doEvent (rec : option osFile -> string -> world -> result) (fuel : nat)
    (f : osFile) (res : value) (w : world) : result :=
  match res with
  | VEvent ev => Returned None (record (Out ev) w)
  | VLoadFilePtr ev => rec (Some f) (File ev) w
  | VWaitForItPtr ev => waitForIt fuel ev w
  | _ => Returned None w
  end.

(** The [for scanner.Scan()] loop over the lines that are left. *)
Fixpoint playLines (rec : option osFile -> string -> world -> result) (fuel : nat)
    (f : osFile) (lines : list string) (w : world) : result :=
  match lines with
  | [] => Returned None w
  | text :: rest =>
      match SplitN2 ":" text with
      | [s0; s1] =>
          if HasPrefix s0 "#" then playLines rec fuel f rest w
          else
            match parseEvent s1 with
            | ParseError _ => playLines rec fuel f rest w
            | Parsed res =>
                let w := on_pb (setStep text) w in
                match ParseDuration (String.append s0 "ns") with
                | None => playLines rec fuel f rest w
                | Some duration =>
                    match waitLoop rec fuel f duration w with
                    | Leave r => r
                    | ToEvent w =>
                        match doEvent rec fuel f res w with
                        | Returned None w => playLines rec fuel f rest w
                        | r => r
                        end
                    end
                end
            end
      | _ => playLines rec fuel f rest w
      end
  end.

(** The deferred calls of [playFile] run when it returns and when a panic
    passes through it, not while it is blocked. *)
Definition deferred (g : world -> world) (r : result) : result :=
  match r with
  | Returned err w => Returned err (g w)
  | Panicked w => Panicked (g w)
  | Blocked w => Blocked w
  | OutOfFuel => OutOfFuel
  end.

Definition openError (filename : string) : error :=
  String.append (String.append "open " filename) ": no such file or directory".

Fixpoint playFile (fuel : nat) (parent : option osFile) (filename : string)
    (w : world) : result :=
  match fuel with
  | O => OutOfFuel
  | S fuel =>
      let filename := resolve parent filename in
      match os_Open filename with
      | None => Returned (Some (openError filename)) w
      | Some f =>
          let w := record (Opened (Name f)) w in
          deferred (record (ClosedFile (Name f)))
            (let w := on_pb (addDuration (getDuration f)) w in
             match setFile f (pb w) with
             | (_, Some err, p) => Returned (Some err) (set_pb p w)
             | (old, None, p) =>
                 deferred (on_pb (resetFile old))
                   (playLines (playFile fuel) fuel f (content f) (set_pb p w))
             end)
      end
  end.

End Interpreter.

End vnc.

(** ** A small installation to run the interpreter on

    Stand-ins for what lies outside the two files: a parser for the
    directives used in the examples, [time.ParseDuration] on the delays
    that are plain decimal digits, and a few script files. *)

Module sample.
Import Text Go vnc.

Definition digit (c : ascii) : option Z :=
  let n := nat_of_ascii c in
  if andb (Nat.leb 48 n) (Nat.leb n 57) then Some (Z.of_nat (n - 48)) else None.

Fixpoint digits (acc : Z) (s : string) : option Z :=
  match s with
  | EmptyString => Some acc
  | String c rest =>
      match digit c with
      | Some d => digits (10 * acc + d) rest
      | None => None
      end
  end.

Definition decimal (s : string) : option Z :=
  match s with
  | EmptyString => None
  | _ => digits 0 s
  end.

(** Decimal digits followed by [ns]. *)
Definition ParseDuration (s : string) : option time.Duration :=
  let n := String.length s in
  if String.eqb (substring (n - 2) 2 s) "ns"
  then decimal (substring 0 (n - 2) s)
  else None.

Definition after (p s : string) : string :=
  substring (String.length p) (String.length s - String.length p) s.

(** [KeyEvent,...] and [PointerEvent,...] are wire events,
    [LoadFile,<file>] and [WaitForIt,<nanoseconds>,<file>] are directives. *)
Definition parseEvent (s : string) : parsed :=
  if orb (HasPrefix s "KeyEvent,") (HasPrefix s "PointerEvent,")
  then Parsed (VEvent (WireEvent s))
  else if HasPrefix s "LoadFile,"
  then Parsed (VLoadFilePtr {| File := after "LoadFile," s |})
  else if HasPrefix s "WaitForIt,"
  then match SplitN2 "," (after "WaitForIt," s) with
       | [t; f] =>
           match decimal t with
           | Some n => Parsed (VWaitForItPtr {| WFile := f; Timeout := n |})
           | None => ParseError "invalid event specified"
           end
       | _ => ParseError "invalid event specified"
       end
  else ParseError "invalid event specified".

Definition lineDelay (text : string) : time.Duration :=
  match SplitN2 ":" text with
  | [s0; _] => match ParseDuration (String.append s0 "ns") with
               | Some d => d
               | None => 0
               end
  | _ => 0
  end.

(** The sum of the delays of the lines of the file. *)
Definition getDuration (f : osFile) : time.Duration :=
  fold_right (fun text acc => wrap64 (lineDelay text + acc)) 0 (content f).

Definition Duration_String (d : time.Duration) : string :=
  if d =? 0 then "0s" else "some time".

Definition disk (path : string) : option (list string) :=
  if String.eqb path "/scripts/one.kb" then
    Some ["10000000000:KeyEvent,true,a"]
  else if String.eqb path "/scripts/loop.kb" then
    Some ["0:LoadFile,loop.kb"]
  else if String.eqb path "/scripts/main.kb" then
    Some ["0:KeyEvent,true,a"; "0:LoadFile,sub/part.kb"; "0:KeyEvent,true,c"]
  else if String.eqb path "/scripts/sub/part.kb" then
    Some ["0:KeyEvent,true,b"]
  else if String.eqb path "/scripts/rough.kb" then
    Some ["no separator"; "# a note: with a colon"; "5:Nonsense,1"; "soon:KeyEvent,true,x";
          "0:KeyEvent,true,y"]
  else if String.eqb path "/scripts/wait.kb" then
    Some ["0:WaitForIt,2000000000,login.png"; "0:KeyEvent,true,z"]
  else None.

Definition session : playback := newPlayback "0" "localhost:5900".

Definition world0 : world :=
  {| pb := session; now := 0; calls := []; frames := []; fbWrites := []; trace := [] |}.

Definition run (fuel : nat) (filename : string) (w : world) : result :=
  playFile disk parseEvent getDuration ParseDuration fuel None filename w.

(** A session in the middle of [/scripts/one.kb], and the same session
    after [Stop]. *)
Definition playing : playback :=
  set_file (Some {| Name := "/scripts/one.kb"; content := ["10000000000:KeyEvent,true,a"] |})
    (set_e "10000000000:KeyEvent,true,a" (set_duration 10000000000 session)).

Definition stopped : playback := snd (fst (Stop playing)).

Definition rough : osFile :=
  {| Name := "/scripts/rough.kb";
     content := ["no separator"; "# a note: with a colon"; "5:Nonsense,1";
                 "soon:KeyEvent,true,x"; "0:KeyEvent,true,y"] |}.

(** A row of the VM table. *)
Definition web1 : Search.VM :=
  {| Search.name := "web1"; Search.host := "Alpha"; Search.tags := "";
     Search.disk := "web.qcow2"; Search.vlan := "[lan, dmz]";
     Search.ip := "[10.0.0.5]"; Search.state := "RUNNING";
     Search.busy := false; Search.captures := []; Search.DoNotBoot := false |}.

End sample.

(** ** Notions used to state the properties *)

Module notions.
Import Text Go vnc.

(** Everything that changes a session: a call on the control surface or
    one of the interpreter's setters. *)
Inductive action :=
| Call (c : call)
| SetFile (f : osFile)
| ResetFile (old : option osFile)
| SetStep (s : string)
| AddDuration (d : time.Duration).

Definition act (parseEvent : string -> parsed) (a : action) (p : playback) : playback :=
  match a with
  | Call c => snd (fst (perform parseEvent c p))
  | SetFile f => snd (setFile f p)
  | ResetFile old => resetFile old p
  | SetStep s => setStep s p
  | AddDuration d => addDuration d p
  end.

Definition acts (parseEvent : string -> parsed) (l : list action) (p : playback) : playback :=
  fold_left (fun q a => act parseEvent a q) l p.

(** The third entry of [Info]'s answer. *)
Definition statusLine (Duration_String : time.Duration -> string) (p : playback) : string :=
  match state p with
  | Pause => "PAUSED"
  | _ => String.append (Duration_String (duration p)) " remaining"
  end.

(** The world a call ended in, when it ended in one. *)
Definition world_of (r : result) : option world :=
  match r with
  | Returned _ w | Panicked w | Blocked w => Some w
  | OutOfFuel => None
  end.

Definition error_of (r : result) : option error :=
  match r with
  | Returned err _ => err
  | _ => None
  end.

(** The trace of [w'] is the trace of [w] with later observations added. *)
Definition extends (w w' : world) : Prop :=
  exists later, trace w' = (later ++ trace w)%list.

Definition grows (w : world) (r : result) : Prop :=
  match world_of r with
  | Some w' => extends w w'
  | None => True
  end.

Definition selected_world (s : selected) : world :=
  match s with
  | TimerFired w | GotSignal _ w | SawClosed w | NoSender w => w
  end.

Definition panicked (r : result) : bool :=
  match r with
  | Panicked _ => true
  | _ => false
  end.

(** [r] is the result of a call of [playFile] from [w] that opened [name]
    first, or failed to. *)
Definition opens (disk : string -> option (list string)) (w : world) (name : string)
    (r : result) : Prop :=
  match disk name with
  | None => r = Returned (Some (openError name)) w
  | Some _ =>
      match world_of r with
      | Some w' => exists later, trace w' = (later ++ (now w, Opened name) :: trace w)%list
      | None => r = OutOfFuel
      end
  end.

Fixpoint has_char (c : ascii) (s : string) : bool :=
  match s with
  | EmptyString => false
  | String c' rest => orb (Ascii.eqb c' c) (has_char c rest)
  end.

(** The image files created, oldest first, and the wire events queued,
    with their times. *)
Definition created (w : world) : list Z :=
  rev (flat_map (fun x => match snd x with Created i => [i] | _ => [] end) (trace w)).

Definition outs (w : world) : list (time.Time * Event) :=
  rev (flat_map (fun x => match snd x with Out ev => [(fst x, ev)] | _ => [] end) (trace w)).

Definition still_open (w : world) : Z :=
  fold_right (fun x n => match snd x with
                         | Opened _ => n + 1
                         | ClosedFile _ => n - 1
                         | _ => n
                         end) 0 (trace w).

End notions.

(** ** Further notions *)

Module conditions.
Import Text Go vnc notions.

(** What holds of a session from [newPlayback] on: the state is [Play] or
    [Pause], and the signal channel is closed exactly when the session is
    marked closed. *)
Definition sound (p : playback) : Prop :=
  (state p = Play \/ state p = Pause) /\ signalClosed p = closed p.

(** The error of [setFile]. *)
Definition limitError : error := "too many recursive LoadFiles".

(** [w'] has the include depth and the current file of [w]. *)
Definition same_place (w w' : world) : Prop :=
  depth (pb w') = depth (pb w) /\ file (pb w') = file (pb w).

(** A call that returned without the recursion-limit error, or panicked,
    left the include depth and the current file as it found them. *)
Definition balanced (w : world) (r : result) : Prop :=
  match r with
  | Returned err w' => err <> Some limitError -> same_place w w'
  | Panicked w' => same_place w w'
  | Blocked _ => True
  | OutOfFuel => True
  end.

Definition in_int64 (z : Z) : Prop := minInt64 <= z <= maxInt64.

(** A script line that holds a wire event: the text before the separator,
    the text after it, and what they parse to. *)
Record wireLine := {
  delayText : string;
  directive : string;
  delay : time.Duration;
  event : Event
}.

Definition lineText (l : wireLine) : string :=
  String.append (delayText l) (String ":" (directive l)).

Definition wellFormed (parseEvent : string -> parsed)
    (ParseDuration : string -> option time.Duration) (l : wireLine) : Prop :=
  has_char ":" (delayText l) = false /\
  HasPrefix (delayText l) "#" = false /\
  parseEvent (directive l) = Parsed (VEvent (event l)) /\
  ParseDuration (String.append (delayText l) "ns") = Some (delay l).

(** When the events of the lines are due, for a script started at [t]. *)
Fixpoint timeline (t : time.Time) (ls : list wireLine) : list (time.Time * Event) :=
  match ls with
  | [] => []
  | l :: rest =>
      let t' := t + Z.max 0 (delay l) in
      (t', event l) :: timeline t' rest
  end.

(** The remaining duration after the delays of the lines have been taken
    off one by one. *)
Definition charged (d : time.Duration) (ls : list wireLine) : time.Duration :=
  fold_left (fun acc l => add64 acc (neg64 (delay l))) ls d.

(** [i], [i + 1], ..., [i + k - 1]. *)
Definition numbered (i : Z) (k : nat) : list Z :=
  map (fun j => i + Z.of_nat j) (seq 0 k).

(** When a script of wire events started at [t] is through. *)
Fixpoint finish (t : time.Time) (ls : list wireLine) : time.Time :=
  match ls with
  | [] => t
  | l :: rest => finish (t + Z.max 0 (delay l)) rest
  end.

(** A line of a script that holds wire events and includes of files of
    wire events: the two texts of the line, what they parse to and, for an
    include, the lines of the included file. *)
Inductive entry :=
| Wire (l : wireLine)
| Include (delayText directive : string) (delay : time.Duration) (name : string)
          (body : list wireLine).

Definition entryText (en : entry) : string :=
  match en with
  | Wire l => lineText l
  | Include s0 s1 _ _ _ => String.append s0 (String ":" s1)
  end.

(** The entry says what its line parses to and, for an include, what the
    file found from the including file [f] holds. *)
Definition entryOK (disk : string -> option (list string))
    (parseEvent : string -> parsed)
    (ParseDuration : string -> option time.Duration) (f : osFile) (en : entry) : Prop :=
  match en with
  | Wire l => wellFormed parseEvent ParseDuration l
  | Include s0 s1 d name body =>
      has_char ":" s0 = false /\
      HasPrefix s0 "#" = false /\
      parseEvent s1 = Parsed (VLoadFilePtr {| File := name |}) /\
      ParseDuration (String.append s0 "ns") = Some d /\
      disk (resolve (Some f) name) = Some (map lineText body) /\
      Forall (wellFormed parseEvent ParseDuration) body
  end.

(** When the events of the entries are due, the events of an included file
    in the place of its include, and when the script is through. *)
Fixpoint schedule (t : time.Time) (es : list entry) : list (time.Time * Event) :=
  match es with
  | [] => []
  | Wire l :: rest =>
      ((t + Z.max 0 (delay l), event l) :: schedule (t + Z.max 0 (delay l)) rest)%list
  | Include _ _ d _ body :: rest =>
      (timeline (t + Z.max 0 d) body
       ++ schedule (finish (t + Z.max 0 d) body) rest)%list
  end.

Fixpoint through (t : time.Time) (es : list entry) : time.Time :=
  match es with
  | [] => t
  | Wire l :: rest => through (t + Z.max 0 (delay l)) rest
  | Include _ _ d _ body :: rest => through (finish (t + Z.max 0 d) body) rest
  end.

(** What is said of the world after a stretch of the script, played with
    nobody calling: the time, the events queued, and the session at the
    same depth and file. *)
Definition after_stretch (w w1 : world) (t : time.Time)
    (queued : list (time.Time * Event)) : Prop :=
  signalClosed (pb w1) = false /\ calls w1 = [] /\ now w1 = t /\
  outs w1 = (outs w ++ queued)%list /\
  depth (pb w1) = depth (pb w) /\ file (pb w1) = file (pb w).

End conditions.

(** ** The search filter ([BuildTree], [postfix], [createTree], [evaluate]) *)

Module Filter.
Import Text Search.

(** [boolOps = /^(?:and|or|not)$/] *)
Definition boolOps (term : string) : bool :=
  orb (String.eqb term "and") (orb (String.eqb term "or") (String.eqb term "not")).

(** [stateRe = /^(?:error|quit|running|shutdown|paused)$/] *)
Definition stateRe (term : string) : bool :=
  orb (String.eqb term "error")
    (orb (String.eqb term "quit")
       (orb (String.eqb term "running")
          (orb (String.eqb term "shutdown") (String.eqb term "paused")))).

Definition is_digit (c : ascii) : bool :=
  let n := nat_of_ascii c in andb (Nat.leb 48 n) (Nat.leb n 57).

(** [\d{1,3}[.]] at the start of the text: what follows it. A digit is no
    dot, so at most one count of digits fits. *)
Definition octetDot (s : string) : option string :=
  match s with
  | String a (String b r) =>
      if is_digit a then
        if Ascii.eqb b "." then Some r
        else if is_digit b then
          match r with
          | String c r' =>
              if Ascii.eqb c "." then Some r'
              else if is_digit c then
                match r' with
                | String d r'' => if Ascii.eqb d "." then Some r'' else None
                | EmptyString => None
                end
              else None
          | EmptyString => None
          end
        else None
      else None
  | _ => None
  end.

(** [(?:\d{1,3}[.]){3}\d{1,3}] at the start of the text; the optional
    [/nn] that may follow does not change whether there is a match. *)
Definition ipv4At (s : string) : bool :=
  match octetDot s with
  | Some r1 =>
      match octetDot r1 with
      | Some r2 =>
          match octetDot r2 with
          | Some (String d _) => is_digit d
          | _ => false
          end
      | None => false
      end
  | None => false
  end.

(** [ipv4Re.test(term)]: a match anywhere in the term. *)
Fixpoint ipv4Re (term : string) : bool :=
  if ipv4At term then true
  else match term with
       | EmptyString => false
       | String _ rest => ipv4Re rest
       end.

(** A single or a double quote. *)
Definition is_quote (c : ascii) : bool :=
  orb (Nat.eqb (nat_of_ascii c) 39) (Nat.eqb (nat_of_ascii c) 34).

(** The characters up to the next quote, when there is one. *)
Fixpoint untilQuote (s : string) : option string :=
  match s with
  | EmptyString => None
  | String c r =>
      if is_quote c then Some EmptyString
      else match untilQuote r with
           | Some run => Some (String c run)
           | None => None
           end
  end.

(** [keywordEscape]: a quote, one or more characters that are no quotes,
    and a quote; the result is the first group (the characters between
    the quotes) of the leftmost match, when there is a match. *)
Fixpoint keywordEscape (s : string) : option string :=
  match s with
  | EmptyString => None
  | String c r =>
      if is_quote c then
        match untilQuote r with
        | Some (String x run) => Some (String x run)
        | _ => keywordEscape r
        end
      else keywordEscape r
  end.

(** [groups = /(?:[(][^ ])|(?:[^ ][)])/]: a parenthesis with something
    other than a space on its inner side. *)
Fixpoint groups (s : string) : bool :=
  match s with
  | String a ((String b _) as r) =>
      if orb (andb (Ascii.eqb a "(") (negb (Ascii.eqb b " ")))
             (andb (negb (Ascii.eqb a " ")) (Ascii.eqb b ")"))
      then true
      else groups r
  | _ => false
  end.

(** The two [replace] calls of [BuildTree]: a space is put after every
    opening and before every closing parenthesis. *)
Fixpoint spaceAfterOpen (s : string) : string :=
  match s with
  | EmptyString => EmptyString
  | String c r =>
      if Ascii.eqb c "(" then String c (String " " (spaceAfterOpen r))
      else String c (spaceAfterOpen r)
  end.

Fixpoint spaceBeforeClose (s : string) : string :=
  match s with
  | EmptyString => EmptyString
  | String c r =>
      if Ascii.eqb c ")" then String " " (String c (spaceBeforeClose r))
      else String c (spaceBeforeClose r)
  end.

Definition getSearchFields (term : string) : list string :=
  if ipv4Re term then ["IPv4"]
  else if stateRe term then ["State"]
  else if includes term "capturing" then ["Captures"]
  else if includes term "busy" then ["Busy"]
  else if includes term "dnb" then ["DoNotBoot"]
  else defaultSearchFields.

(** A node: [term], [searchFields] (null in the operator nodes), [left]
    and [right]. *)
#[local] Unset Elimination Schemes.
Inductive ExpressionTree :=
| Tree (term : string) (searchFields : option (list string))
       (left right : option ExpressionTree).
#[local] Set Elimination Schemes.

(** The [while (token !== '(')] loop of [postfix]: the operators above the
    opening parenthesis go to the output; [None] when the stack runs out
    (the [throw]). The stack has its top first. *)
Fixpoint popToOpen (opStack output : list string) : option (list string * list string) :=
  match opStack with
  | [] => None
  | token :: st =>
      if String.eqb token "(" then Some (st, output)
      else popToOpen st (output ++ [token])%list
  end.

Fixpoint postfix_terms (terms output opStack : list string) : option (list string) :=
  match terms with
  | [] => Some (output ++ opStack)%list
  | term :: rest =>
      if Nat.eqb (String.length term) 0 then postfix_terms rest output opStack
      else if orb (boolOps term) (String.eqb term "(")
      then postfix_terms rest output (term :: opStack)
      else if String.eqb term ")" then
        match popToOpen opStack output with
        | Some (st, out) => postfix_terms rest out st
        | None => None
        end
      else postfix_terms rest (output ++ [term])%list opStack
  end.

(** [postfix(terms)]; [None] when it throws. *)
Definition postfix (terms : list string) : option (list string) :=
  postfix_terms terms [] [].

(** The operand node [createTree] makes of a term. *)
Definition operand (term : string) : ExpressionTree :=
  match keywordEscape term with
  | Some inner => Tree inner (Some defaultSearchFields) None None
  | None => Tree term (Some (getSearchFields term)) None None
  end.

Fixpoint createTree_terms (postFix : list string) (stack : list ExpressionTree)
    : option ExpressionTree :=
  match postFix with
  | [] =>
      match stack with
      | t :: _ => Some t
      | [] => None
      end
  | term :: rest =>
      if boolOps term then
        match stack with
        | [] => None
        | t1 :: st =>
            match st with
            | t2 :: st' =>
                if negb (String.eqb term "not")
                then createTree_terms rest (Tree term None (Some t2) (Some t1) :: st')
                else createTree_terms rest (Tree term None None (Some t1) :: st)
            | [] => createTree_terms rest (Tree term None None (Some t1) :: st)
            end
        end
      else createTree_terms rest (operand term :: stack)
  end.

(** [createTree(postFix)]; [None] when it throws. *)
Definition createTree (postFix : list string) : option ExpressionTree :=
  createTree_terms postFix [].

(** [BuildTree(searchFilter)]; [None] is [null]. *)
Definition BuildTree (searchFilter : string) : option ExpressionTree :=
  let searchFilter := trim searchFilter in
  if Nat.eqb (String.length searchFilter) 0 then None
  else
    let searchFilter :=
      if groups searchFilter then spaceBeforeClose (spaceAfterOpen searchFilter)
      else searchFilter in
    let searchString := toLowerCase searchFilter in
    let stringParts := split " " searchString in
    let stringParts :=
      if existsb boolOps stringParts then stringParts
      else split " " (String.concat " and " stringParts) in
    match postfix stringParts with
    | None => None
    | Some postFix =>
        match postFix with
        | [only] => if boolOps only then None else createTree postFix
        | _ => createTree postFix
        end
    end.

Section Evaluate.

Variable IPV4 : Type.
Variable setAddress : string -> option IPV4.
Variable contains : IPV4 -> string -> bool.

(** [evaluate(vm)]; [None] when [match] throws on the null [searchFields]
    of a node without children. Both sides are evaluated, the right one
    first. *)
Fixpoint evaluate (t : ExpressionTree) (vm : VM) : option bool :=
  match t with
  | Tree term searchFields None None =>
      match searchFields with
      | Some fields => Some (match_ IPV4 setAddress contains fields vm term)
      | None => None
      end
  | Tree term _ lft rgt =>
      let rightSide :=
        match rgt with
        | Some r => evaluate r vm
        | None => Some false
        end in
      match rightSide with
      | None => None
      | Some rightSide =>
          let leftSide :=
            match lft with
            | Some l => evaluate l vm
            | None => Some false
            end in
          match leftSide with
          | None => None
          | Some leftSide =>
              if String.eqb term "and" then Some (andb rightSide leftSide)
              else if String.eqb term "or" then Some (orb rightSide leftSide)
              else if String.eqb term "not" then Some (negb rightSide)
              else Some false
          end
      end
  end.

End Evaluate.

End Filter.

(** ** Notions for the search filter *)

Module phrases.
Import Text Search Filter.

Inductive connective := And | Or.

Definition word (c : connective) : string :=
  match c with
  | And => "and"
  | Or => "or"
  end.

(** A filter without parentheses, as it is read: a term, a term joined to
    what follows by [and] or [or], or [not] before what follows. *)
Inductive phrase :=
| Term (a : string)
| Joined (a : string) (c : connective) (rest : phrase)
| Negated (rest : phrase).

Fixpoint tokens (p : phrase) : list string :=
  match p with
  | Term a => [a]
  | Joined a c rest => a :: word c :: tokens rest
  | Negated rest => "not" :: tokens rest
  end.

(** A term that [postfix] takes for an operand. *)
Definition plain (a : string) : Prop :=
  a <> "" /\ boolOps a = false /\ a <> "(" /\ a <> ")".

Fixpoint plainTerms (p : phrase) : Prop :=
  match p with
  | Term a => plain a
  | Joined a _ rest => plain a /\ plainTerms rest
  | Negated rest => plainTerms rest
  end.

(** The terms of the phrase, and its operators, both in reading order. *)
Fixpoint operands (p : phrase) : list string :=
  match p with
  | Term a => [a]
  | Joined a _ rest => a :: operands rest
  | Negated rest => operands rest
  end.

Fixpoint operators (p : phrase) : list string :=
  match p with
  | Term _ => []
  | Joined _ c rest => word c :: operators rest
  | Negated rest => "not" :: operators rest
  end.

(** The tree in which every operator takes all that follows it as its
    right side. *)
Fixpoint build (p : phrase) : ExpressionTree :=
  match p with
  | Term a => operand a
  | Joined a c rest => Tree (word c) None (Some (operand a)) (Some (build rest))
  | Negated rest => Tree "not" None None (Some (build rest))
  end.

(** The words joined by [and]. *)
Fixpoint allOf (first : string) (others : list string) : phrase :=
  match others with
  | [] => Term first
  | next :: others => Joined first And (allOf next others)
  end.

(** A tree as [createTree] makes them: a node without children has search
    fields. *)
Fixpoint wellBuilt (t : ExpressionTree) : Prop :=
  match t with
  | Tree _ searchFields None None => searchFields <> None
  | Tree _ _ lft rgt =>
      match lft with Some l => wellBuilt l | None => True end /\
      match rgt with Some r => wellBuilt r | None => True end
  end.

Section Meaning.

Variable IPV4 : Type.
Variable setAddress : string -> option IPV4.
Variable contains : IPV4 -> string -> bool.

(** Whether a vm matches a term: a quoted term is looked for in the
    default fields, any other term in the fields [getSearchFields] picks
    for it. *)
Definition matches (a : string) (vm : VM) : bool :=
  match keywordEscape a with
  | Some inner => match_ IPV4 setAddress contains defaultSearchFields vm inner
  | None => match_ IPV4 setAddress contains (getSearchFields a) vm a
  end.

Fixpoint meaning (p : phrase) (vm : VM) : bool :=
  match p with
  | Term a => matches a vm
  | Joined a And rest => andb (matches a vm) (meaning rest vm)
  | Joined a Or rest => orb (matches a vm) (meaning rest vm)
  | Negated rest => negb (meaning rest vm)
  end.

End Meaning.

End phrases.

(** ** Properties of the search matcher *)

Module SearchFacts.
Import Text Search.

Section Match.

Variable IPV4 : Type.
Variable setAddress : string -> option IPV4.
Variable contains : IPV4 -> string -> bool.

Local Abbreviation match_field := (match_field IPV4 setAddress contains).
Local Abbreviation match_ := (match_ IPV4 setAddress contains).

Lemma caseName_miss (vm : VM) (term : string) :
  includes (toLowerCase (name vm)) term = false ->
  caseName vm term = caseHost vm term.
Proof. intros H. unfold caseName. now rewrite H. Qed.

Lemma match_skips (pre rest : list string) (vm : VM) (term : string) :
  (forall f, In f pre -> match_field f vm term = None) ->
  match_ (pre ++ rest) vm term = match_ rest vm term.
Proof.
  induction pre as [|f pre IH]; intros Hpre; simpl.
  - reflexivity.
  - rewrite (Hpre f (or_introl eq_refl)). apply IH.
    intros g Hg. apply Hpre. now right.
Qed.

(** C10. In [match], the ["Name"] case has no negative exit: for a vm whose
    name does not contain the term, executing the switch for the field
    ["Name"] does what the ["Host"] case does, so it returns true when
    [vm.host] contains the term; a search-field list in which ["Name"] is
    reached (the fields before it went on to the next field) and is
    followed by ["Host"] makes [match] return true, as does any list in
    which ["Name"] is reached, whatever follows it. *)
Theorem match_Name_falls_into_Host (vm : VM) (term : string) (pre post : list string)
    (Hname : includes (toLowerCase (name vm)) term = false)
    (Hhost : includes (toLowerCase (host vm)) term = true)
    (Hpre : forall f, In f pre -> match_field f vm term = None) :
  match_field "Name" vm term = match_field "Host" vm term /\
  match_field "Name" vm term = Some true /\
  match_ (pre ++ "Name" :: "Host" :: post) vm term = true /\
  forall rest, match_ (pre ++ "Name" :: rest) vm term = true.
Proof.
  assert (Hn : match_field "Name" vm term = Some true).
  { cbn. rewrite (caseName_miss _ _ Hname). unfold caseHost. now rewrite Hhost. }
  assert (Hall : forall rest, match_ (pre ++ "Name" :: rest) vm term = true).
  { intros rest. rewrite (match_skips _ _ _ _ Hpre). cbn [Search.match_].
    now rewrite Hn. }
  repeat split.
  - rewrite Hn. cbn. unfold caseHost. now rewrite Hhost.
  - exact Hn.
  - apply Hall.
  - exact Hall.
Qed.

End Match.

Lemma match_Name_falls_into_Host_witness :
  match_ unit (fun _ => None) (fun _ _ => false)
         (["IPv4"; "Vlans"] ++ "Name" :: "Host" :: ["Tags"]) sample.web1 "alpha" = true /\
  match_ unit (fun _ => None) (fun _ _ => false)
         (["IPv4"; "Vlans"] ++ ["Name"]) sample.web1 "alpha" = true.
Proof.
  pose proof (match_Name_falls_into_Host unit (fun _ => None) (fun _ _ => false)
                sample.web1 "alpha" ["IPv4"; "Vlans"] ["Tags"] eq_refl eq_refl) as H.
  assert (Hpre : forall f, In f ["IPv4"; "Vlans"] ->
            match_field unit (fun _ => None) (fun _ _ => false) f sample.web1 "alpha" = None).
  { intros f [<-|[<-|[]]]; reflexivity. }
  destruct (H Hpre) as (_ & _ & H1 & H2). split; [exact H1 | exact (H2 [])].
Defined.

End SearchFacts.

(** ** Properties of the control surface *)

Module SurfaceFacts.
Import Text Go vnc notions.

Lemma closed_perform (parseEvent : string -> parsed) (c : call) (p : playback) :
  closed p = true -> closed (snd (fst (perform parseEvent c p))) = true.
Proof.
  intros H. destruct c; cbn; unfold Step_, Pause_, Continue, Stop, Inject;
    rewrite H, ?orb_true_r; cbn; exact H.
Qed.

Lemma closed_act (parseEvent : string -> parsed) (a : action) (p : playback) :
  closed p = true -> closed (act parseEvent a p) = true.
Proof.
  intros H. destruct a as [c|f|old|s|d]; cbn.
  - now apply closed_perform.
  - unfold setFile. cbn. destruct (100 <? _); cbn; exact H.
  - exact H.
  - exact H.
  - exact H.
Qed.

Lemma closed_acts (parseEvent : string -> parsed) (l : list action) (p : playback) :
  closed p = true -> closed (acts parseEvent l p) = true.
Proof.
  revert p. induction l as [|a l IH]; intros p H; cbn.
  - exact H.
  - apply IH. now apply closed_act.
Qed.

(** C5. [Stop] on a session that is not closed closes the signal channel,
    sets [closed] and returns no error; whatever is done to the session
    afterwards, [closed] stays set, and a later [Stop] returns an error and
    changes nothing. *)
Theorem Stop_closes_exactly_once (parseEvent : string -> parsed) (p : playback)
    (l : list action) (Hopen : closed p = false) :
  let p1 := snd (fst (Stop p)) in
  fst (fst (Stop p)) = None /\
  signalClosed p1 = true /\
  closed p1 = true /\
  closed (acts parseEvent l p1) = true /\
  Stop (acts parseEvent l p1)
    = (Some "playback has already stopped", acts parseEvent l p1, []).
Proof.
  unfold Stop at 1 2 3. rewrite Hopen. cbn.
  assert (Hc : closed (acts parseEvent l (set_stopped p)) = true)
    by now apply closed_acts.
  repeat split; try exact Hc.
  unfold Stop. rewrite Hc. cbn. reflexivity.
Qed.

Lemma Stop_closes_exactly_once_witness :
  fst (fst (Stop sample.playing)) = None /\
  Stop (acts sample.parseEvent [Call CallContinue; Call (CallInject "KeyEvent,true,a");
                                AddDuration 5; Call CallStop]
             (snd (fst (Stop sample.playing))))
    = (Some "playback has already stopped",
       acts sample.parseEvent [Call CallContinue; Call (CallInject "KeyEvent,true,a");
                               AddDuration 5; Call CallStop]
            (snd (fst (Stop sample.playing))), []).
Proof.
  pose proof (Stop_closes_exactly_once sample.parseEvent sample.playing
                [Call CallContinue; Call (CallInject "KeyEvent,true,a");
                 AddDuration 5; Call CallStop] eq_refl) as H.
  cbv zeta in H. destruct H as (H1 & _ & _ & _ & H5). split; [exact H1 | exact H5].
Defined.

(** C6, as the claim states it, fails: on a closed session [Info] returns
    nil and [GetStep] returns an error. *)
Lemma Info_GetStep_closed_session :
  ~ (forall p : playback,
       (exists l, Info sample.Duration_String p = Returns (Some l)) /\
       GetStep p = (e p, None)).
Proof.
  intros H. destruct (H sample.stopped) as [[l Hl] _]. discriminate Hl.
Qed.

(** C6, amended. On a session that is not closed and has a current file,
    [Info] returns the id, the kind, ["PAUSED"] or the remaining duration,
    and the name of the current file, and [GetStep] returns the current
    event description without an error; on a closed session [Info] returns
    nil and [GetStep] returns an error. *)
Theorem Info_GetStep_open_or_closed (Duration_String : time.Duration -> string)
    (p : playback) :
  (closed p = false -> forall f, file p = Some f ->
     Info Duration_String p
       = Returns (Some [ID p; "playback kb"; statusLine Duration_String p; Name f]) /\
     GetStep p = (e p, None)) /\
  (closed p = true ->
     Info Duration_String p = Returns None /\
     GetStep p = ("", Some "playback has already stopped")).
Proof.
  split.
  - intros Hc f Hf. unfold Info, GetStep, statusLine. rewrite Hc, Hf.
    split; [|reflexivity]. destruct (state p); reflexivity.
  - intros Hc. unfold Info, GetStep. rewrite Hc. split; reflexivity.
Qed.

Lemma Info_GetStep_open_or_closed_witness :
  (Info sample.Duration_String sample.playing
     = Returns (Some ["0"; "playback kb"; "some time remaining"; "/scripts/one.kb"]) /\
   GetStep sample.playing = ("10000000000:KeyEvent,true,a", None)) /\
  (Info sample.Duration_String sample.stopped = Returns None /\
   GetStep sample.stopped = ("", Some "playback has already stopped")).
Proof.
  split.
  - exact (proj1 (Info_GetStep_open_or_closed sample.Duration_String sample.playing)
             eq_refl _ eq_refl).
  - exact (proj2 (Info_GetStep_open_or_closed sample.Duration_String sample.stopped)
             eq_refl).
Defined.

End SurfaceFacts.

(** ** Properties of the interpreter *)

Module InterpreterFacts.
Import Text Go vnc notions.

Lemma SplitN2_without_separator (sep : ascii) (text : string) :
  has_char sep text = false -> SplitN2 sep text = [text].
Proof.
  induction text as [|c text IH]; cbn; intros H.
  - reflexivity.
  - apply orb_false_iff in H. destruct H as [Hc Ht].
    rewrite Hc, (IH Ht). reflexivity.
Qed.

Lemma SplitN2_at_separator (sep : ascii) (s0 s1 : string) :
  has_char sep s0 = false ->
  SplitN2 sep (String.append s0 (String sep s1)) = [s0; s1].
Proof.
  induction s0 as [|c s0 IH]; cbn; intros H.
  - now rewrite Ascii.eqb_refl.
  - apply orb_false_iff in H. destruct H as [Hc Ht].
    rewrite Hc, (IH Ht). reflexivity.
Qed.

Section Lines.

Variable parseEvent : string -> parsed.
Variable ParseDuration : string -> option time.Duration.

Local Abbreviation playLines := (vnc.playLines parseEvent ParseDuration).

(** C9. A line without the [:] separator, a line whose delay field begins
    with [#], a line whose directive text does not parse and a line whose
    delay does not parse are skipped: the interpreter goes on with the
    lines that follow, and no error is returned for the line. The last
    kind of line has been made the current step by then. *)
Theorem bad_line_is_skipped (rec : option osFile -> string -> world -> result)
    (fuel : nat) (f : osFile) (text : string) (rest : list string) (w : world)
    (Hbad : has_char ":" text = false \/
            exists s0 s1,
              text = String.append s0 (String ":" s1) /\ has_char ":" s0 = false /\
              (HasPrefix s0 "#" = true \/
               (exists err, parseEvent s1 = ParseError err) \/
               ParseDuration (String.append s0 "ns") = None)) :
  playLines rec fuel f (text :: rest) w = playLines rec fuel f rest w \/
  playLines rec fuel f (text :: rest) w
    = playLines rec fuel f rest (on_pb (setStep text) w).
Proof.
  destruct Hbad as [Hno | (s0 & s1 & -> & Hs0 & Hwhy)].
  - left. cbn [vnc.playLines]. now rewrite (SplitN2_without_separator _ _ Hno).
  - cbn [vnc.playLines]. rewrite (SplitN2_at_separator _ _ _ Hs0).
    destruct (HasPrefix s0 "#") eqn:Hc; [now left|].
    destruct (parseEvent s1) as [res|msg] eqn:Hp; [|now left].
    destruct Hwhy as [Hcom | [[msg Herr] | Hdur]].
    + discriminate Hcom.
    + discriminate Herr.
    + right. now rewrite Hdur.
Qed.

End Lines.

Lemma bad_line_is_skipped_witness :
  vnc.playLines sample.parseEvent sample.ParseDuration (fun _ _ w => Returned None w) 3
    sample.rough ("soon:KeyEvent,true,x" :: ["0:KeyEvent,true,y"]) sample.world0
  = vnc.playLines sample.parseEvent sample.ParseDuration (fun _ _ w => Returned None w) 3
      sample.rough ["0:KeyEvent,true,y"] sample.world0 \/
  vnc.playLines sample.parseEvent sample.ParseDuration (fun _ _ w => Returned None w) 3
    sample.rough ("soon:KeyEvent,true,x" :: ["0:KeyEvent,true,y"]) sample.world0
  = vnc.playLines sample.parseEvent sample.ParseDuration (fun _ _ w => Returned None w) 3
      sample.rough ["0:KeyEvent,true,y"]
      (on_pb (setStep "soon:KeyEvent,true,x") sample.world0).
Proof.
  apply (bad_line_is_skipped sample.parseEvent sample.ParseDuration).
  right. exists "soon", "KeyEvent,true,x". repeat split; try reflexivity.
  right. right. reflexivity.
Defined.

Section Waits.

Variable parseEvent : string -> parsed.

Local Abbreviation waitLoop := (vnc.waitLoop parseEvent).
Local Abbreviation select_signal := (vnc.select_signal parseEvent).

(** A call that sends a signal and is made before the timer fires is what
    the [select] receives. *)
Lemma select_signal_first_call (d : time.Duration) (w : world) (at_ : time.Time)
    (c : call) (cs : list (time.Time * call)) (p : playback) (sig : signal) :
  signalClosed (pb w) = false ->
  calls w = (at_, c) :: cs ->
  at_ < now w + Z.max 0 d ->
  perform parseEvent c (pb w) = (None, p, [SentSignal sig]) ->
  select_signal d w
    = GotSignal sig (set_calls cs (set_pb p (set_now (Z.max (now w) at_) w))).
Proof.
  intros Hchan Hcalls Hat Hperf. unfold vnc.select_signal. rewrite Hcalls.
  cbn [await]. rewrite Hchan.
  apply Z.ltb_lt in Hat. rewrite Hat. cbn [pb set_now]. now rewrite Hperf.
Qed.

(** C7. When [Step] is called during the wait that precedes a directive,
    the interpreter lowers the remaining-duration estimate by the delay
    still outstanding and goes to the directive at once: control reaches
    the [Event] label at the time the signal is received, no timer is
    waited for, and a wire event is queued at that same time. *)
Theorem Step_acts_at_once (rec : option osFile -> string -> world -> result)
    (fuel : nat) (f : osFile) (d : time.Duration) (w : world) (at_ : time.Time)
    (cs : list (time.Time * call))
    (Hchan : signalClosed (pb w) = false)
    (Hopen : closed (pb w) = false)
    (Hplay : state (pb w) = Play)
    (Hcalls : calls w = (at_, CallStep) :: cs)
    (Hat : now w <= at_ < now w + d) :
  let waited := time.Sub (now w) at_ in
  let outstanding := sub64 d waited in
  exists w',
    waitLoop rec (S fuel) f d w = ToEvent w' /\
    now w' = at_ /\
    calls w' = cs /\
    trace w' = trace w /\
    duration (pb w')
      = add64 (add64 (duration (pb w)) (neg64 waited)) (neg64 outstanding) /\
    forall ev,
      doEvent rec fuel f (VEvent ev) w'
        = Returned None (record (Out ev) w') /\
      trace (record (Out ev) w') = (at_, Out ev) :: trace w.
Proof.
  intros waited outstanding.
  assert (Hsel : select_signal d w
            = GotSignal {| kind := Step; data := VNil |}
                (set_calls cs (set_pb (pb w) (set_now (Z.max (now w) at_) w)))).
  { apply select_signal_first_call with (c := CallStep); try assumption.
    - lia.
    - cbn. unfold Step_. now rewrite Hplay, Hopen. }
  assert (Hmax : Z.max (now w) at_ = at_) by lia.
  eexists. split.
  - cbn [vnc.waitLoop]. fold select_signal. rewrite Hsel. cbn [kind]. reflexivity.
  - cbn. rewrite Hmax. repeat split; reflexivity.
Qed.

End Waits.

Lemma Step_acts_at_once_witness :
  exists w',
    vnc.waitLoop sample.parseEvent (fun _ _ w => Returned None w) 1 sample.rough
      10000000000 (set_calls [(3000000000, CallStep)] sample.world0) = ToEvent w' /\
    now w' = 3000000000 /\
    duration (pb w') = -10000000000.
Proof.
  destruct (Step_acts_at_once sample.parseEvent (fun _ _ w => Returned None w) 0
              sample.rough 10000000000
              (set_calls [(3000000000, CallStep)] sample.world0) 3000000000 []
              eq_refl eq_refl eq_refl eq_refl ltac:(cbn; lia))
    as (w' & H1 & H2 & _ & _ & H5 & _).
  exists w'. repeat split; [exact H1 | exact H2 | rewrite H5; reflexivity].
Defined.

(** *** The synchronizer *)

(** No path through [waitForIt] returns nil. *)
Lemma waitForIt_loop_never_nil (fuel : nat) (ev : WaitForItEvent)
    (timeout : time.Duration) (i : Z) (w : world) :
  waitForIt_loop fuel ev timeout i w = OutOfFuel \/
  exists err w', waitForIt_loop fuel ev timeout i w = Returned (Some err) w'.
Proof.
  revert timeout i w. induction fuel as [|fuel IH]; intros timeout i w; cbn.
  - destruct (0 <? timeout); [now left | right; eauto].
  - destruct (0 <? timeout); [|right; eauto].
    destruct (fbWrite w) as [[err|] w1]; [right; eauto|].
    destruct (awaitFrame _ _ _) as [[[at_ io]|] rest]; [|right; eauto].
    destruct io; [apply IH | right; eauto | right; eauto].
Qed.

Lemma waitForIt_never_nil (fuel : nat) (ev : WaitForItEvent) (w : world) :
  waitForIt fuel ev w = OutOfFuel \/
  exists err w', waitForIt fuel ev w = Returned (Some err) w'.
Proof. apply waitForIt_loop_never_nil. Qed.

(** Without a frame, and with the request written, the timeout error names
    the reference. *)
Lemma waitForIt_without_frames (fuel : nat) (ev : WaitForItEvent) (w : world) :
  frames w = [] -> fbWrites w = [] ->
  exists w', waitForIt (S fuel) ev w = Returned (Some (timeoutError ev)) w'.
Proof.
  intros Hf Hw. unfold waitForIt. cbn [waitForIt_loop].
  destruct (0 <? _); [|eauto].
  unfold fbWrite. rewrite Hw. cbn. rewrite Hf. cbn. eauto.
Qed.

(** C2, at a frame that arrives in time. With a timeout of two seconds and
    one frame offered after half a second, [waitForIt] creates
    [screenshot-0.png], sleeps a second, asks for another frame, and
    returns the timeout error when the two seconds are over. *)
Theorem waitForIt_frame_in_time_times_out :
  let r := waitForIt 5 {| WFile := "login.png"; Timeout := 2000000000 |}
             (set_frames [(500000000, Saved)] sample.world0) in
  error_of r = Some "timeout waiting for login.png" /\
  option_map created (world_of r) = Some [0] /\
  option_map now (world_of r) = Some 2000000000.
Proof. vm_compute. repeat split; reflexivity. Qed.

(** *** Signals during the wait *)

(** C1, at a pause. A line with a delay of ten seconds is paused after
    three seconds and resumed at five: the wire event is queued at eighteen
    seconds, thirteen seconds after the resumption, where the seven seconds
    that were left would have made it twelve. *)
Theorem pause_lengthens_the_wait :
  let r := sample.run 5 "/scripts/one.kb"
             (set_calls [(3000000000, CallPause); (5000000000, CallContinue)]
                        sample.world0) in
  error_of r = None /\
  option_map outs (world_of r)
    = Some [(18000000000, WireEvent "KeyEvent,true,a")].
Proof. vm_compute. split; reflexivity. Qed.

(** C4, at an injected [LoadFile]. [Inject] puts the [*LoadFileEvent] on
    the signal channel, and the interpreter that receives it during a wait
    panics in the type assertion. *)
Theorem injected_LoadFile_panics :
  Inject sample.parseEvent "LoadFile,sub/part.kb" sample.playing
    = (None, sample.playing,
       [SentSignal {| kind := LoadFile;
                      data := VLoadFilePtr {| File := "sub/part.kb" |} |}]) /\
  panicked (sample.run 5 "/scripts/one.kb"
              (set_calls [(3000000000, CallInject "LoadFile,sub/part.kb")]
                         sample.world0)) = true.
Proof. vm_compute. split; reflexivity. Qed.

(** *** Nested files *)

(** C3, at the recursion limit. A script that loads itself is stopped by
    the limit; when the outermost [playFile] has returned, every file has
    been closed and the current file is the one from before, but [depth]
    is 1. *)
Theorem recursion_limit_leaves_depth_raised :
  let r := sample.run 200 "/scripts/loop.kb" sample.world0 in
  error_of r = Some "too many recursive LoadFiles" /\
  option_map still_open (world_of r) = Some 0 /\
  option_map (fun w => file (pb w)) (world_of r) = Some (file (pb sample.world0)) /\
  depth (pb sample.world0) = 0 /\
  option_map (fun w => depth (pb w)) (world_of r) = Some 1.
Proof. vm_compute. repeat split; reflexivity. Qed.

(** *** The trace only grows *)

Lemma extends_refl (w : world) : extends w w.
Proof. now exists []. Qed.

Lemma extends_trans (w1 w2 w3 : world) :
  extends w1 w2 -> extends w2 w3 -> extends w1 w3.
Proof.
  intros [l1 H1] [l2 H2]. exists (l2 ++ l1)%list.
  now rewrite H2, H1, app_assoc.
Qed.

Lemma extends_same_trace (w w1 w2 : world) :
  trace w2 = trace w1 -> extends w w1 -> extends w w2.
Proof. intros E [l H]. exists l. now rewrite E. Qed.

Lemma extends_record (w w1 : world) (o : obs) :
  extends w w1 -> extends w (record o w1).
Proof. intros [l H]. exists ((now w1, o) :: l). cbn. now rewrite H. Qed.

Lemma grows_trans (w w1 : world) (r : result) :
  extends w w1 -> grows w1 r -> grows w r.
Proof.
  unfold grows. destruct (world_of r); [|trivial].
  intros H1 H2. now apply extends_trans with w1.
Qed.

Lemma grows_deferred (g : world -> world) (w : world) (r : result) :
  (forall w1, extends w w1 -> extends w (g w1)) ->
  grows w r -> grows w (deferred g r).
Proof.
  intros Hg. destruct r; cbn; auto.
Qed.

Ltac same_trace := eapply extends_same_trace; [reflexivity|].

Section Growth.

Variable disk : string -> option (list string).
Variable parseEvent : string -> parsed.
Variable getDuration : osFile -> time.Duration.
Variable ParseDuration : string -> option time.Duration.

Lemma await_grows (deadline : option time.Time) (cs : list (time.Time * call))
    (w0 w : world) :
  extends w0 w -> extends w0 (selected_world (await parseEvent deadline cs w)).
Proof.
  revert w. induction cs as [|[at_ c] cs IH]; intros w Hw; cbn [await].
  - destruct (signalClosed (pb w)); [now same_trace|].
    destruct deadline; now same_trace.
  - destruct (signalClosed (pb w)); [now same_trace|].
    destruct (match deadline with Some t => at_ <? t | None => true end).
    + cbn [pb set_now].
      destruct (perform parseEvent c (pb w)) as [[err p] out].
      destruct out as [|[sig|ev] out].
      * apply IH. now same_trace.
      * cbn. now same_trace.
      * apply IH. apply extends_record. now same_trace.
    + destruct deadline; now same_trace.
Qed.

Lemma waitForIt_loop_grows (fuel : nat) (ev : WaitForItEvent)
    (timeout : time.Duration) (i : Z) (w0 w : world) :
  extends w0 w -> grows w0 (waitForIt_loop fuel ev timeout i w).
Proof.
  revert timeout i w. induction fuel as [|fuel IH]; intros timeout i w Hw;
    cbn [waitForIt_loop].
  - destruct (0 <? timeout); cbn; auto.
  - destruct (0 <? timeout); [|exact Hw].
    assert (H1 : extends w0 (snd (fbWrite w))).
    { unfold fbWrite. destruct (fbWrites w) as [|[err|] l]; cbn [snd].
      - now apply extends_record.
      - now same_trace.
      - apply extends_record. now same_trace. }
    destruct (fbWrite w) as [[err|] w1]; cbn [snd] in H1; [exact H1|].
    destruct (awaitFrame _ _ _) as [[[at_ io]|] rest].
    + destruct io.
      * apply IH. unfold sleep. apply extends_record. same_trace.
        apply extends_record. now same_trace.
      * cbn. now same_trace.
      * cbn. apply extends_record. now same_trace.
    + cbn. now same_trace.
Qed.

Lemma waitForIt_grows (fuel : nat) (ev : WaitForItEvent) (w0 w : world) :
  extends w0 w -> grows w0 (waitForIt fuel ev w).
Proof. apply waitForIt_loop_grows. Qed.

Section Rec.

Variable rec : option osFile -> string -> world -> result.
Hypothesis rec_grows :
  forall parent filename w0 w, extends w0 w -> grows w0 (rec parent filename w).

Lemma waitLoop_grows (fuel : nat) (f : osFile) (d : time.Duration) (w0 w : world) :
  extends w0 w ->
  match waitLoop parseEvent rec fuel f d w with
  | ToEvent w' => extends w0 w'
  | Leave r => grows w0 r
  end.
Proof.
  revert d w. induction fuel as [|fuel IH]; intros d w Hw; cbn [waitLoop].
  - exact I.
  - pose proof (await_grows (Some (now w + Z.max 0 d)) (calls w) w0 w Hw) as Hs.
    unfold select_signal.
    destruct (await parseEvent _ (calls w) w) as [w1|sig w1|w1|w1];
      cbn [selected_world] in Hs; try exact Hs.
    set (w2 := on_pb _ w1).
    assert (H2 : extends w0 w2) by (subst w2; now same_trace).
    destruct (kind sig).
    + now apply IH.
    + unfold receive_signal.
      pose proof (await_grows None (calls w2) w0 w2 H2) as Hr.
      destruct (await parseEvent None (calls w2) w2) as [w3|sig3 w3|w3|w3];
        cbn [selected_world] in Hr; try exact Hr.
      now apply IH.
    + now same_trace.
    + destruct (data sig) as [ev|ev|ev|ev|desc|]; try exact H2.
      pose proof (rec_grows (Some f) (File ev) w0 w2 H2) as Hrec.
      destruct (rec (Some f) (File ev) w2) as [[err|] w3|w3|w3|]; try exact Hrec.
      now apply IH.
    + destruct (data sig) as [ev|ev|ev|ev|desc|]; try exact H2.
      pose proof (waitForIt_grows fuel ev w0 w2 H2) as Hwf.
      destruct (waitForIt fuel ev w2) as [[err|] w3|w3|w3|]; try exact Hwf.
      now apply IH.
Qed.

Lemma doEvent_grows (fuel : nat) (f : osFile) (res : value) (w0 w : world) :
  extends w0 w -> grows w0 (doEvent rec fuel f res w).
Proof.
  intros Hw. destruct res; cbn [doEvent]; try exact Hw.
  - cbn. now apply extends_record.
  - now apply rec_grows.
  - now apply waitForIt_grows.
Qed.

Lemma playLines_grows (fuel : nat) (f : osFile) (lines : list string) (w0 w : world) :
  extends w0 w -> grows w0 (playLines parseEvent ParseDuration rec fuel f lines w).
Proof.
  revert w. induction lines as [|text rest IH]; intros w Hw; cbn [playLines].
  - exact Hw.
  - destruct (SplitN2 ":" text) as [|s0 [|s1 [|s2 l]]]; try now apply IH.
    destruct (HasPrefix s0 "#"); [now apply IH|].
    destruct (parseEvent s1) as [res|msg]; [|now apply IH].
    assert (H1 : extends w0 (on_pb (setStep text) w)) by now same_trace.
    destruct (ParseDuration _) as [d|]; [|now apply IH].
    pose proof (waitLoop_grows fuel f d w0 _ H1) as Hwl.
    destruct (waitLoop _ _ _ _ _ _) as [w2|r]; [|exact Hwl].
    pose proof (doEvent_grows fuel f res w0 w2 Hwl) as Hd.
    destruct (doEvent rec fuel f res w2) as [[err|] w3|w3|w3|]; try exact Hd.
    now apply IH.
Qed.

End Rec.

Lemma playFile_grows (fuel : nat) (parent : option osFile) (filename : string)
    (w0 w : world) :
  extends w0 w ->
  grows w0 (playFile disk parseEvent getDuration ParseDuration fuel parent filename w).
Proof.
  revert parent filename w0 w. induction fuel as [|fuel IH];
    intros parent filename w0 w Hw; cbn [playFile].
  - exact I.
  - destruct (os_Open disk _) as [f|]; [|exact Hw].
    apply grows_deferred; [intros; now apply extends_record|].
    set (w1 := on_pb _ _).
    assert (H1 : extends w0 w1) by (subst w1; same_trace; now apply extends_record).
    unfold setFile. cbn [pb depth set_depth].
    destruct (100 <? _).
    + cbn. exact H1.
    + apply grows_deferred; [intros; now same_trace|].
      apply playLines_grows; [exact IH | now same_trace].
Qed.

End Growth.

(** *** Which file is opened *)

Section Resolve.

Variable disk : string -> option (list string).
Variable parseEvent : string -> parsed.
Variable getDuration : osFile -> time.Duration.
Variable ParseDuration : string -> option time.Duration.

Local Abbreviation playFile := (vnc.playFile disk parseEvent getDuration ParseDuration).

Lemma playFile_after_open (fuel : nat) (parent : option osFile) (filename : string)
    (w : world) (lines : list string) :
  disk (resolve parent filename) = Some lines ->
  grows (record (Opened (resolve parent filename)) w)
        (playFile (S fuel) parent filename w).
Proof.
  intros Hd. cbn [vnc.playFile]. unfold os_Open. rewrite Hd. cbn [Name].
  set (w0 := record _ w).
  apply grows_deferred; [intros; now apply extends_record|].
  set (w1 := on_pb _ _).
  assert (H1 : extends w0 w1) by (now exists []).
  unfold setFile. cbn [pb depth set_depth].
  destruct (100 <? _).
  - cbn. exact H1.
  - apply grows_deferred; [intros; now same_trace|].
    apply playLines_grows; [apply playFile_grows | now same_trace].
Qed.

Lemma playFile_opens (fuel : nat) (parent : option osFile) (filename : string)
    (w : world) :
  opens disk w (resolve parent filename) (playFile (S fuel) parent filename w).
Proof.
  unfold opens. destruct (disk (resolve parent filename)) as [lines|] eqn:Hd.
  - pose proof (playFile_after_open fuel parent filename w lines Hd) as Hg.
    unfold grows in Hg.
    destruct (playFile (S fuel) parent filename w) as [err w'|w'|w'|];
      cbn [world_of] in *; try exact Hg. reflexivity.
  - cbn [vnc.playFile]. unfold os_Open. now rewrite Hd.
Qed.

(** C8. [playFile] opens the name it is given when the name is absolute or
    there is no parent (the top-level script), and otherwise the name
    joined to the directory of the parent's name; the nested file of a
    [LoadFile] directive is played with the file being read as parent. *)
Theorem include_resolved_against_parent (fuel : nat) (parent : option osFile)
    (filename : string) (w : world) :
  let opened :=
    match parent with
    | Some par =>
        if filepath.IsAbs filename then filename
        else filepath.Join (filepath.Dir (Name par)) filename
    | None => filename
    end in
  opens disk w opened (playFile (S fuel) parent filename w) /\
  forall n f ev w1,
    doEvent (playFile fuel) n f (VLoadFilePtr ev) w1
      = playFile fuel (Some f) (File ev) w1.
Proof.
  cbv zeta. split; [|reflexivity].
  replace (match parent with
           | Some par => if filepath.IsAbs filename then filename
                         else filepath.Join (filepath.Dir (Name par)) filename
           | None => filename
           end) with (resolve parent filename).
  - apply playFile_opens.
  - unfold resolve. destruct parent as [par|]; [|reflexivity].
    now destruct (filepath.IsAbs filename).
Qed.

End Resolve.

(** The nested file of [/scripts/main.kb] is found next to it. *)
Lemma main_opens_its_part :
  option_map (fun w => rev (trace w)) (world_of (sample.run 5 "/scripts/main.kb" sample.world0))
  = Some [(0, Opened "/scripts/main.kb");
          (0, Out (WireEvent "KeyEvent,true,a"));
          (0, Opened "/scripts/sub/part.kb");
          (0, Out (WireEvent "KeyEvent,true,b"));
          (0, ClosedFile "/scripts/sub/part.kb");
          (0, Out (WireEvent "KeyEvent,true,c"));
          (0, ClosedFile "/scripts/main.kb")].
Proof. vm_compute. reflexivity. Qed.

(** *** The same three paths, for every script and session *)

Section Paths.

Variable disk : string -> option (list string).
Variable parseEvent : string -> parsed.
Variable getDuration : osFile -> time.Duration.
Variable ParseDuration : string -> option time.Duration.

(** The delay kept after an interruption [elapsed] into the wait. *)
Lemma interrupted_wait_outstanding (start at_ : time.Time) (d : time.Duration) :
  start <= at_ <= start + maxInt64 ->
  minInt64 <= d <= maxInt64 ->
  d + (at_ - start) <= maxInt64 ->
  sub64 d (time.Sub start at_) = d + (at_ - start).
Proof.
  intros H1 H2 H3. unfold sub64, time.Sub, wrap64, minInt64, maxInt64 in *.
  change (2 ^ 63) with 9223372036854775808 in *.
  change (2 ^ 64) with 18446744073709551616.
  repeat match goal with
         | |- context [?a <? ?b] => destruct (Z.ltb_spec a b); [lia|]
         end.
  rewrite Z.mod_small; lia.
Qed.

(** [Pause] during the wait, then [Continue]: the loop starts over with
    the delay it computed at the interruption. *)
Lemma Pause_then_Continue_resumes (rec : option osFile -> string -> world -> result)
    (fuel : nat) (f : osFile) (d : time.Duration) (w : world) (t1 t2 : time.Time)
    (cs : list (time.Time * call)) :
  signalClosed (pb w) = false ->
  closed (pb w) = false ->
  state (pb w) = Play ->
  calls w = (t1, CallPause) :: (t2, CallContinue) :: cs ->
  now w <= t1 < now w + d ->
  t1 <= t2 ->
  exists w',
    waitLoop parseEvent rec (S fuel) f d w
      = waitLoop parseEvent rec fuel f (sub64 d (time.Sub (now w) t1)) w' /\
    now w' = t2 /\
    calls w' = cs /\
    trace w' = trace w /\
    duration (pb w') = add64 (duration (pb w)) (neg64 (time.Sub (now w) t1)).
Proof.
  intros Hchan Hopen Hplay Hcalls Ht1 Ht2.
  assert (Hsel : select_signal parseEvent d w
            = GotSignal {| kind := Pause; data := VNil |}
                (set_calls ((t2, CallContinue) :: cs)
                   (set_pb (set_state Pause (pb w)) (set_now (Z.max (now w) t1) w)))).
  { apply select_signal_first_call with (c := CallPause); try assumption.
    - lia.
    - cbn. unfold Pause_. now rewrite Hplay, Hopen. }
  assert (Hm1 : Z.max (now w) t1 = t1) by lia.
  assert (Hm2 : Z.max t1 t2 = t2) by lia.
  eexists. split.
  - cbn [waitLoop]. rewrite Hsel. cbn [kind].
    unfold receive_signal. cbn. rewrite Hchan. unfold Continue. cbn.
    rewrite Hopen. cbn. rewrite Hm1, Hm2. reflexivity.
  - cbn. repeat split; reflexivity.
Qed.

(** An injected [LoadFile] received during the wait. *)
Lemma injected_LoadFile_signal_panics (rec : option osFile -> string -> world -> result)
    (fuel : nat) (f : osFile) (d : time.Duration) (w : world) (at_ : time.Time)
    (cmd : string) (ev : LoadFileEvent) (cs : list (time.Time * call)) :
  signalClosed (pb w) = false ->
  closed (pb w) = false ->
  calls w = (at_, CallInject cmd) :: cs ->
  at_ < now w + Z.max 0 d ->
  parseEvent cmd = Parsed (VLoadFilePtr ev) ->
  exists w', waitLoop parseEvent rec (S fuel) f d w = Leave (Panicked w').
Proof.
  intros Hchan Hopen Hcalls Hat Hparse.
  assert (Hsel : select_signal parseEvent d w
            = GotSignal {| kind := LoadFile; data := VLoadFilePtr ev |}
                (set_calls cs (set_pb (pb w) (set_now (Z.max (now w) at_) w)))).
  { apply select_signal_first_call with (c := CallInject cmd); try assumption.
    cbn. unfold Inject. now rewrite Hopen, Hparse. }
  eexists. cbn [waitLoop]. rewrite Hsel. cbn [kind data]. reflexivity.
Qed.

(** The call of [playFile] that trips the recursion limit returns with
    [depth] one higher than it found it. *)
Lemma playFile_at_the_limit (fuel : nat) (parent : option osFile) (filename : string)
    (w : world) (lines : list string) :
  disk (resolve parent filename) = Some lines ->
  depth (pb w) = 100 ->
  exists w',
    playFile disk parseEvent getDuration ParseDuration (S fuel) parent filename w
      = Returned (Some "too many recursive LoadFiles") w' /\
    depth (pb w') = 101 /\
    file (pb w') = file (pb w).
Proof.
  intros Hd Hdepth. cbn [playFile]. unfold os_Open. rewrite Hd.
  unfold setFile. cbn [pb depth set_depth on_pb set_pb addDuration set_duration record].
  rewrite Hdepth. cbn. eexists. split; [reflexivity|]. split; reflexivity.
Qed.

End Paths.

End InterpreterFacts.

(** ** More on the control surface *)

Module SurfaceMore.
Import Text Go vnc notions conditions.

Lemma set_state_same (p : playback) : set_state (state p) p = p.
Proof. now destruct p. Qed.

Lemma set_state_twice (a b : Control) (p : playback) :
  set_state a (set_state b p) = set_state a p.
Proof. reflexivity. Qed.

Section Calls.

Variable parseEvent : string -> parsed.

Lemma rejected_when_closed (p : playback) (c : call) :
  closed p = true -> exists err, perform parseEvent c p = (Some err, p, []).
Proof.
  intros Hclosed. destruct c; cbn; unfold Step_, Pause_, Continue, Stop, Inject;
    rewrite Hclosed, ?orb_true_r; eauto.
Qed.

(** Once the session is closed, every call on the control surface returns
    an error, leaves the session as it is and sends nothing. *)
Theorem closed_session_rejects_calls (p : playback) (c : call)
    (Hclosed : closed p = true) :
  exists err, perform parseEvent c p = (Some err, p, []).
Proof. exact (rejected_when_closed p c Hclosed). Qed.

(** [Pause] on an open, playing session sends the [Pause] signal and marks
    the session paused; [Continue] then sends [Play] and gives the session
    back as it was. While paused, [Step] and a second [Pause] are
    rejected; while playing, [Continue] is rejected. *)
Theorem Pause_Continue_round_trip (p : playback)
    (Hopen : closed p = false) (Hplay : state p = Play) :
  Pause_ p = (None, set_state Pause p, [SentSignal {| kind := Pause; data := VNil |}]) /\
  Continue (set_state Pause p)
    = (None, p, [SentSignal {| kind := Play; data := VNil |}]) /\
  Pause_ (set_state Pause p) = (Some "playback not pauseable", set_state Pause p, []) /\
  Step_ (set_state Pause p) = (Some "playback not stepable", set_state Pause p, []) /\
  Continue p = (Some "playback not playable", p, []).
Proof.
  destruct p. cbn in Hopen, Hplay. subst.
  repeat split; reflexivity.
Qed.

(** No call on the control surface touches what the interpreter keeps in
    the session: the include depth, the remaining duration, the current
    step and the current file. *)
Theorem calls_leave_bookkeeping (c : call) (p : playback) :
  let p' := snd (fst (perform parseEvent c p)) in
  depth p' = depth p /\ duration p' = duration p /\ e p' = e p /\
  file p' = file p /\ ID p' = ID p.
Proof.
  destruct c; cbn; unfold Step_, Pause_, Continue, Stop, Inject.
  - destruct (orb _ _); cbn; auto.
  - destruct (orb _ _); cbn; auto.
  - destruct (orb _ _); cbn; auto.
  - destruct (closed p); cbn; auto.
  - destruct (closed p); cbn; auto.
    destruct (parseEvent cmd) as [[ev|ev|ev|ev|d|]|msg]; cbn; auto.
Qed.

Lemma sound_act (a : action) (p : playback) :
  sound p -> sound (act parseEvent a p).
Proof.
  intros [Hs Hc]. destruct a as [c|f|old|s|d]; cbn.
  - destruct c; cbn; unfold Step_, Pause_, Continue, Stop, Inject.
    + destruct (orb _ _); now split.
    + destruct (orb _ _); split; cbn; auto.
    + destruct (orb _ _); split; cbn; auto.
    + destruct (closed p) eqn:E; split; cbn; auto; congruence.
    + destruct (closed p) eqn:E; [split; cbn; auto; congruence|].
      destruct (parseEvent cmd) as [[ev|ev|ev|ev|d|]|msg];
        split; cbn; auto; congruence.
  - unfold setFile. cbn. destruct (100 <? _); now split.
  - now split.
  - now split.
  - now split.
Qed.

Lemma sound_acts (l : list action) (p : playback) :
  sound p -> sound (acts parseEvent l p).
Proof.
  revert p. induction l as [|a l IH]; intros p H; cbn; [exact H|].
  apply IH. now apply sound_act.
Qed.

(** In every session reached from [newPlayback] by calls and by the
    interpreter's setters, the state is [Play] or [Pause], and the signal
    channel is closed exactly when the session is marked closed. *)
Theorem reachable_sessions_sound (id rhost : string) (l : list action) :
  let p := acts parseEvent l (newPlayback id rhost) in
  (state p = Play \/ state p = Pause) /\ signalClosed p = closed p.
Proof.
  apply sound_acts. split; [now left | reflexivity].
Qed.

(** A call never sends on the closed signal channel (which would panic):
    in a reachable session, a call that sends anything finds the channel
    open, and a call sends at most one thing. *)
Theorem never_sends_on_closed_channel (id rhost : string) (l : list action) (c : call) :
  let p := acts parseEvent l (newPlayback id rhost) in
  let out := snd (perform parseEvent c p) in
  (out = [] \/ (signalClosed p = false /\ exists s, out = [s])).
Proof.
  cbv zeta. set (p := acts parseEvent l (newPlayback id rhost)).
  assert (Hc : signalClosed p = closed p).
  { apply (sound_acts l (newPlayback id rhost)). split; [now left | reflexivity]. }
  destruct (closed p) eqn:E.
  - left. destruct (rejected_when_closed p c E) as [err H]. now rewrite H.
  - destruct c; cbn; unfold Step_, Pause_, Continue, Stop, Inject; rewrite E.
    + destruct (orb _ _); cbn; eauto.
    + destruct (orb _ _); cbn; eauto.
    + destruct (orb _ _); cbn; eauto.
    + cbn. now left.
    + destruct (parseEvent cmd) as [[ev|ev|ev|ev|d|]|msg]; cbn; eauto.
Qed.

End Calls.

Lemma closed_session_rejects_calls_witness :
  exists err,
    perform sample.parseEvent (CallInject "KeyEvent,true,a") sample.stopped
      = (Some err, sample.stopped, []).
Proof.
  exact (closed_session_rejects_calls sample.parseEvent sample.stopped
           (CallInject "KeyEvent,true,a") eq_refl).
Defined.

Lemma Pause_Continue_round_trip_witness :
  Continue (set_state Pause sample.playing)
    = (None, sample.playing, [SentSignal {| kind := Play; data := VNil |}]).
Proof.
  exact (proj1 (proj2 (Pause_Continue_round_trip sample.playing eq_refl eq_refl))).
Defined.

End SurfaceMore.

(** ** More on the interpreter *)

Module InterpreterMore.
Import Text Go vnc notions conditions.

(** *** 64-bit arithmetic *)

Lemma wrap64_small (z : Z) : in_int64 z -> wrap64 z = z.
Proof.
  unfold in_int64, wrap64, minInt64, maxInt64.
  change (2 ^ 63) with 9223372036854775808.
  change (2 ^ 64) with 18446744073709551616.
  intros H. rewrite Z.mod_small; lia.
Qed.

Lemma wrap64_range (z : Z) : in_int64 (wrap64 z).
Proof.
  unfold in_int64, wrap64, minInt64, maxInt64.
  change (2 ^ 63) with 9223372036854775808.
  change (2 ^ 64) with 18446744073709551616.
  pose proof (Z.mod_pos_bound (z + 9223372036854775808) 18446744073709551616).
  lia.
Qed.

Lemma wrap64_shift (z : Z) (k : Z) :
  wrap64 (wrap64 z + k) = wrap64 (z + k).
Proof.
  unfold wrap64.
  change (2 ^ 63) with 9223372036854775808.
  change (2 ^ 64) with 18446744073709551616.
  f_equal.
  replace ((z + 9223372036854775808) mod 18446744073709551616
           - 9223372036854775808 + k + 9223372036854775808)
    with ((z + 9223372036854775808) mod 18446744073709551616 + k) by lia.
  rewrite Zplus_mod_idemp_l. f_equal. lia.
Qed.

Lemma sub64_add64_one (d : Z) : in_int64 d -> sub64 (add64 d 1) 1 = d.
Proof.
  intros H. unfold sub64, add64.
  replace (wrap64 (d + 1) - 1) with (wrap64 (d + 1) + (-1)) by lia.
  rewrite wrap64_shift. replace (d + 1 + -1) with d by lia.
  now apply wrap64_small.
Qed.

(** *** [setFile] and [resetFile] *)

Lemma setFile_below_limit (f : osFile) (p : playback) :
  minInt64 <= depth p -> depth p < 100 ->
  setFile f p = (file p, None, set_file (Some f) (set_depth (depth p + 1) p)) /\
  resetFile (file p) (snd (setFile f p)) = p.
Proof.
  intros Hlow Hhigh.
  assert (Hin : in_int64 (depth p + 1)).
  { unfold in_int64, minInt64, maxInt64 in *.
    change (2 ^ 63) with 9223372036854775808 in *. lia. }
  assert (Hset : setFile f p
            = (file p, None, set_file (Some f) (set_depth (depth p + 1) p))).
  { unfold setFile, add64. rewrite (wrap64_small _ Hin). cbn [depth set_depth].
    destruct (Z.ltb_spec 100 (depth p + 1)); [lia | reflexivity]. }
  split; [exact Hset|].
  rewrite Hset. cbn [snd]. unfold resetFile, sub64. cbn [depth set_file set_depth].
  replace (depth p + 1 - 1) with (depth p) by lia.
  rewrite wrap64_small.
  - now destruct p.
  - unfold in_int64, minInt64, maxInt64 in *.
    change (2 ^ 63) with 9223372036854775808 in *. lia.
Qed.

(** Below the recursion limit [setFile] succeeds, hands back the file that
    was current and makes the new one current; [resetFile] with the file
    handed back undoes it, depth included. *)
Theorem setFile_resetFile_round_trip (f : osFile) (p : playback)
    (Hlow : minInt64 <= depth p) (Hhigh : depth p < 100) :
  setFile f p = (file p, None, set_file (Some f) (set_depth (depth p + 1) p)) /\
  resetFile (file p) (snd (setFile f p)) = p.
Proof. exact (setFile_below_limit f p Hlow Hhigh). Qed.

Lemma setFile_resetFile_round_trip_witness :
  resetFile (file sample.playing) (snd (setFile sample.rough sample.playing))
    = sample.playing.
Proof.
  exact (proj2 (setFile_resetFile_round_trip sample.rough sample.playing
                  ltac:(vm_compute; discriminate) ltac:(vm_compute; reflexivity))).
Defined.

(** *** The synchronizer *)

Ltac int64 :=
  unfold in_int64, minInt64, maxInt64, time.Second in *;
  change (2 ^ 63) with 9223372036854775808 in *; lia.

Lemma Sub_exact (t u : time.Time) : in_int64 (t - u) -> time.Sub t u = t - u.
Proof.
  intros H. unfold time.Sub.
  destruct (Z.ltb_spec (t - u) minInt64); [int64|].
  destruct (Z.ltb_spec maxInt64 (t - u)); [int64|]. reflexivity.
Qed.

Lemma awaitFrame_shorter (start deadline : time.Time) (fs : list (time.Time * saving)) :
  (List.length (snd (awaitFrame start deadline fs)) <= List.length fs)%nat /\
  forall at_ io rest,
    awaitFrame start deadline fs = (Some (at_, io), rest) ->
    (List.length rest < List.length fs)%nat /\ start <= at_ < deadline.
Proof.
  induction fs as [|[t io0] fs [IH1 IH2]]; cbn.
  - split; [lia | discriminate].
  - destruct (Z.ltb_spec t start).
    + split; [lia|]. intros at_ io rest H0. destruct (IH2 _ _ _ H0). split; [lia | assumption].
    + destruct (Z.ltb_spec t deadline); cbn.
      * split; [lia|]. intros at_ io rest [= <- <- <-]. split; [lia | lia].
      * split; [lia | discriminate].
Qed.

Lemma fbWrite_keeps (w : world) :
  let w1 := snd (fbWrite w) in
  pb w1 = pb w /\ calls w1 = calls w /\ now w1 = now w /\ frames w1 = frames w /\
  created w1 = created w.
Proof.
  unfold fbWrite. destruct (fbWrites w) as [|[err|] l]; cbn; repeat split; reflexivity.
Qed.

Lemma created_record_Created (i : Z) (w : world) :
  created (record (Created i) w) = (created w ++ [i])%list.
Proof. reflexivity. Qed.

(** The loop ends with an error once the frames on offer are used up; it
    leaves the session and the pending calls alone, and the clock is by
    then at most one second past the deadline. *)
Lemma waitForIt_loop_ends (fuel : nat) (ev : WaitForItEvent) (timeout : time.Duration)
    (i : Z) (w : world) :
  (List.length (frames w) < fuel)%nat ->
  - time.Second <= timeout <= maxInt64 ->
  exists err w',
    waitForIt_loop fuel ev timeout i w = Returned (Some err) w' /\
    pb w' = pb w /\ calls w' = calls w /\
    now w <= now w' <= Z.max (now w) (now w + timeout + time.Second).
Proof.
  revert timeout i w. induction fuel as [|fuel IH]; intros timeout i w Hfuel Ht;
    [lia|].
  cbn [waitForIt_loop]. destruct (Z.ltb_spec 0 timeout) as [Hpos|Hneg].
  2:{ exists (timeoutError ev), w. repeat split; lia. }
  pose proof (fbWrite_keeps w) as Hk. cbv zeta in Hk.
  destruct (fbWrite w) as [[err|] w1]; cbn [snd] in Hk;
    destruct Hk as (Hpb & Hcalls & Hnow & Hframes & _).
  { exists err, w1. rewrite Hpb, Hcalls, Hnow. repeat split; lia. }
  destruct (awaitFrame_shorter (now w1) (now w1 + timeout) (frames w1)) as [Hlen Hsome].
  destruct (awaitFrame (now w1) (now w1 + timeout) (frames w1)) as [[[at_ io]|] rest].
  - destruct (Hsome at_ io rest eq_refl) as [Hshort Hat].
    cbn [now set_frames set_now].
    assert (Hw : time.Sub at_ (now w1) = at_ - now w1) by (apply Sub_exact; int64).
    rewrite Hw.
    assert (H1 : sub64 timeout (at_ - now w1) = timeout - (at_ - now w1)).
    { apply wrap64_small. int64. }
    rewrite H1.
    destruct io as [|msg|msg].
    + assert (H2 : sub64 (timeout - (at_ - now w1)) time.Second
                   = timeout - (at_ - now w1) - time.Second).
      { apply wrap64_small. int64. }
      rewrite H2.
      edestruct (IH (timeout - (at_ - now w1) - time.Second) (add64 i 1)
                   (sleep time.Second (record (Created i) (set_frames rest (set_now at_ w1)))))
        as (err & w' & Hr & Hp & Hc & Hn).
      * cbn. rewrite Hframes in Hshort. lia.
      * int64.
      * exists err, w'. split; [exact Hr|]. cbn in Hp, Hc, Hn.
        rewrite Hp, Hc, Hpb, Hcalls. unfold time.Second in *. repeat split; lia.
    + eexists _, _. split; [reflexivity|]. cbn. rewrite Hpb, Hcalls.
      unfold time.Second. repeat split; lia.
    + eexists _, _. split; [reflexivity|]. cbn. rewrite Hpb, Hcalls.
      unfold time.Second. repeat split; lia.
  - eexists _, _. split; [reflexivity|]. cbn. rewrite Hpb, Hcalls.
    unfold time.Second. repeat split; lia.
Qed.

(** [waitForIt] always comes back, with an error: given a step for every
    frame on offer it returns an error, having left the session and the
    pending calls alone, no later than one second after its timeout. *)
Theorem waitForIt_returns_by_deadline (fuel : nat) (ev : WaitForItEvent) (w : world)
    (Hfuel : (List.length (frames w) < fuel)%nat)
    (Hrange : minInt64 <= Timeout ev <= maxInt64) :
  exists err w',
    waitForIt fuel ev w = Returned (Some err) w' /\
    pb w' = pb w /\ calls w' = calls w /\
    now w <= now w' <= now w + Z.max 0 (Timeout ev) + time.Second.
Proof.
  unfold waitForIt. unfold time.Nanosecond. rewrite Z.mul_1_r.
  rewrite !(wrap64_small (Timeout ev)) by exact Hrange.
  destruct (Z.ltb_spec 0 (Timeout ev)) as [Hpos|Hneg].
  - destruct (waitForIt_loop_ends fuel ev (Timeout ev) 0 w Hfuel)
      as (err & w' & Hr & Hp & Hc & Hn).
    { unfold time.Second. lia. }
    exists err, w'. unfold time.Second in *. repeat split; try assumption; lia.
  - destruct fuel as [|fuel]; [lia|]. cbn [waitForIt_loop].
    destruct (Z.ltb_spec 0 (Timeout ev)); [lia|].
    exists (timeoutError ev), w. unfold time.Second. repeat split; lia.
Qed.

Lemma waitForIt_returns_by_deadline_witness :
  exists err w',
    waitForIt 2 {| WFile := "login.png"; Timeout := 2000000000 |}
      (set_frames [(500000000, Saved)] sample.world0) = Returned (Some err) w' /\
    pb w' = pb sample.world0 /\ calls w' = [] /\
    0 <= now w' <= 3000000000.
Proof.
  exact (waitForIt_returns_by_deadline 2
           {| WFile := "login.png"; Timeout := 2000000000 |}
           (set_frames [(500000000, Saved)] sample.world0)
           ltac:(cbn; lia) ltac:(vm_compute; split; discriminate)).
Defined.

Lemma numbered_S (i : Z) (k : nat) : numbered i (S k) = i :: numbered (i + 1) k.
Proof.
  unfold numbered. cbn [seq map]. f_equal; [lia|].
  rewrite <- seq_shift, map_map. apply map_ext. intros j. lia.
Qed.

Lemma created_set_frames (fs : list (time.Time * saving)) (w : world) :
  created (set_frames fs w) = created w.
Proof. reflexivity. Qed.

Lemma created_set_now (t : time.Time) (w : world) : created (set_now t w) = created w.
Proof. reflexivity. Qed.

Lemma created_sleep (d : time.Duration) (w : world) : created (sleep d w) = created w.
Proof. reflexivity. Qed.

Ltac created_norm :=
  rewrite ?created_sleep, ?created_record_Created, ?created_set_frames,
    ?created_set_now.

Lemma waitForIt_loop_numbers (fuel : nat) (ev : WaitForItEvent) (timeout : time.Duration)
    (i : Z) (w : world) :
  0 <= i ->
  i + Z.of_nat (List.length (frames w)) <= maxInt64 ->
  match world_of (waitForIt_loop fuel ev timeout i w) with
  | Some w' =>
      exists k, (k <= List.length (frames w))%nat /\
                created w' = (created w ++ numbered i k)%list
  | None => True
  end.
Proof.
  assert (Hnone : forall w0 : world, created w0 = (created w0 ++ numbered i 0)%list)
    by (intros; cbn; now rewrite app_nil_r).
  revert timeout i w Hnone. induction fuel as [|fuel IH]; intros timeout i w Hnone Hi Hlen;
    cbn [waitForIt_loop].
  - destruct (0 <? timeout); cbn [world_of]; [trivial|].
    exists 0%nat. split; [lia | apply Hnone].
  - destruct (0 <? timeout); cbn [world_of].
    2:{ exists 0%nat. split; [lia | apply Hnone]. }
    pose proof (fbWrite_keeps w) as Hk. cbv zeta in Hk.
    destruct (fbWrite w) as [[err|] w1]; cbn [snd] in Hk;
      destruct Hk as (_ & _ & _ & Hframes & Hcreated).
    { cbn [world_of]. exists 0%nat. split; [lia|]. rewrite <- Hcreated. apply Hnone. }
    destruct (awaitFrame_shorter (now w1) (now w1 + timeout) (frames w1)) as [_ Hsome].
    destruct (awaitFrame (now w1) (now w1 + timeout) (frames w1)) as [[[at_ io]|] rest].
    + destruct (Hsome at_ io rest eq_refl) as [Hshort _]. rewrite Hframes in Hshort.
      destruct io as [|msg|msg].
      * assert (Hi1 : add64 i 1 = i + 1) by (apply wrap64_small; int64).
        rewrite Hi1.
        match goal with
        | |- match world_of (waitForIt_loop _ _ ?t _ ?w2) with _ => _ end =>
            pose proof (IH t (i + 1) w2) as Hrec
        end.
        specialize (Hrec ltac:(intros; cbn; now rewrite app_nil_r)
                         ltac:(lia)
                         ltac:(cbn [frames sleep record set_frames set_now]; lia)).
        match goal with
        | |- match world_of ?r with _ => _ end => destruct (world_of r) as [w'|]
        end; [|trivial].
        destruct Hrec as (k & Hk & Hc). exists (S k). split; [cbn [frames sleep record set_frames set_now] in Hk; lia|].
        rewrite Hc, numbered_S. created_norm. rewrite Hcreated.
        now rewrite <- app_assoc.
      * cbn [world_of]. exists 0%nat. split; [lia|]. created_norm.
        rewrite Hcreated. apply Hnone.
      * cbn [world_of]. exists 1%nat. split; [lia|]. created_norm.
        rewrite Hcreated. cbn. now rewrite Z.add_0_r.
    + cbn [world_of]. exists 0%nat. split; [lia|]. created_norm.
      rewrite Hcreated. apply Hnone.
Qed.

(** The image files one call of [waitForIt] creates are numbered 0, 1, 2
    and so on without a gap, at most one for each frame on offer. *)
Theorem screenshots_numbered_from_zero (fuel : nat) (ev : WaitForItEvent) (w w' : world)
    (Hlen : Z.of_nat (List.length (frames w)) <= maxInt64)
    (Hres : world_of (waitForIt fuel ev w) = Some w') :
  exists k, (k <= List.length (frames w))%nat /\
            created w' = (created w ++ numbered 0 k)%list.
Proof.
  pose proof (waitForIt_loop_numbers fuel ev
                (wrap64 (wrap64 (Timeout ev) * time.Nanosecond)) 0 w
                ltac:(lia) ltac:(lia)) as H.
  unfold waitForIt in Hres. now rewrite Hres in H.
Qed.

Lemma awaitFrame_none (start deadline : time.Time) (fs : list (time.Time * saving)) :
  Forall (fun fr => fst fr < start \/ deadline <= fst fr) fs ->
  fst (awaitFrame start deadline fs) = None.
Proof.
  induction 1 as [|[t io] fs Hx _ IH]; cbn; [reflexivity|].
  cbn in Hx. destruct (Z.ltb_spec t start); [exact IH|].
  destruct (Z.ltb_spec t deadline); [lia | reflexivity].
Qed.

(** Only a frame offered while the synchronizer is receiving counts. When
    every frame is offered before the call (the listener dropped it) or at
    the deadline or later, no file is created and the call returns the
    timeout error, which names the reference, exactly at the deadline. *)
Theorem frames_outside_the_wait_are_lost (fuel : nat) (ev : WaitForItEvent) (w : world)
    (Hrange : 0 < Timeout ev <= maxInt64)
    (Hwrite : fbWrites w = [])
    (Hout : Forall (fun fr => fst fr < now w \/ now w + Timeout ev <= fst fr)
                   (frames w)) :
  exists w',
    waitForIt (S fuel) ev w
      = Returned (Some (String.append "timeout waiting for " (WFile ev))) w' /\
    now w' = now w + Timeout ev /\
    created w' = created w /\
    pb w' = pb w.
Proof.
  unfold waitForIt, time.Nanosecond. rewrite Z.mul_1_r.
  rewrite !(wrap64_small (Timeout ev)) by int64.
  cbn [waitForIt_loop]. destruct (Z.ltb_spec 0 (Timeout ev)); [|lia].
  unfold fbWrite. rewrite Hwrite. cbn [now record frames].
  pose proof (awaitFrame_none (now w) (now w + Timeout ev) (frames w) Hout) as Hn.
  destruct (awaitFrame _ _ _) as [[x|] rest]; [discriminate Hn|].
  eexists. split; [reflexivity|]. cbn. repeat split; reflexivity.
Qed.

Lemma screenshots_numbered_from_zero_witness :
  exists k, (k <= 2)%nat /\
    created (set_now 3000000000
               (set_frames []
                  (record FbRequest
                     (record (Slept 1000000000)
                        (set_now 2500000000
                           (record (Created 0)
                              (set_now 1500000000
                                 (record FbRequest
                                    (set_frames [(1500000000, Saved); (1600000000, Saved)]
                                       sample.world0)))))))))
    = ([] ++ numbered 0 k)%list.
Proof.
  exact (screenshots_numbered_from_zero 3
           {| WFile := "login.png"; Timeout := 3000000000 |}
           (set_frames [(1500000000, Saved); (1600000000, Saved)] sample.world0) _
           ltac:(vm_compute; discriminate) eq_refl).
Defined.

Lemma frames_outside_the_wait_are_lost_witness :
  exists w',
    waitForIt 1 {| WFile := "login.png"; Timeout := 2000000000 |}
      (set_now 1000000000
         (set_frames [(500000000, Saved); (3000000000, Saved)] sample.world0))
      = Returned (Some "timeout waiting for login.png") w' /\
    now w' = 3000000000 /\
    created w' = [] /\
    pb w' = sample.session.
Proof.
  exact (frames_outside_the_wait_are_lost 0
           {| WFile := "login.png"; Timeout := 2000000000 |}
           (set_now 1000000000
              (set_frames [(500000000, Saved); (3000000000, Saved)] sample.world0))
           ltac:(vm_compute; split; [reflexivity | discriminate]) eq_refl
           ltac:(repeat constructor; cbn; lia)).
Defined.

(** *** Stopping *)

Lemma set_calls_same (w : world) : set_calls (calls w) w = w.
Proof. now destruct w. Qed.

Section Stopping.

Variable disk : string -> option (list string).
Variable parseEvent : string -> parsed.
Variable getDuration : osFile -> time.Duration.
Variable ParseDuration : string -> option time.Duration.

Lemma await_closed (deadline : option time.Time) (cs : list (time.Time * call))
    (w : world) :
  signalClosed (pb w) = true ->
  await parseEvent deadline cs w = SawClosed (set_calls cs w).
Proof. intros H. destruct cs as [|[t c] cs]; cbn [await]; now rewrite H. Qed.

(** [Stop] called during the wait that precedes a directive: the session
    is closed, and [playFile] is left with no error at the time of the
    call, without the directive having been acted on. *)
Theorem Stop_during_wait_ends_playFile
    (rec : option osFile -> string -> world -> result) (fuel : nat) (f : osFile)
    (d : time.Duration) (w : world) (at_ : time.Time) (cs : list (time.Time * call))
    (Hchan : signalClosed (pb w) = false)
    (Hopen : closed (pb w) = false)
    (Hcalls : calls w = (at_, CallStop) :: cs)
    (Hat : at_ < now w + Z.max 0 d) :
  exists w',
    waitLoop parseEvent rec (S fuel) f d w = Leave (Returned None w') /\
    closed (pb w') = true /\
    signalClosed (pb w') = true /\
    now w' = Z.max (now w) at_ /\
    calls w' = cs /\
    trace w' = trace w.
Proof.
  eexists. split.
  - cbn [waitLoop]. unfold select_signal. rewrite Hcalls. cbn [await].
    rewrite Hchan. apply Z.ltb_lt in Hat. rewrite Hat. cbn [pb set_now perform].
    unfold Stop. rewrite Hopen. cbn [set_pb pb].
    rewrite await_closed by reflexivity. reflexivity.
  - cbn. repeat split; reflexivity.
Qed.


Lemma playFile_step (fuel : nat) (parent : option osFile) (filename : string)
    (w : world) :
  playFile disk parseEvent getDuration ParseDuration (S fuel) parent filename w
  = match os_Open disk (resolve parent filename) with
    | None => Returned (Some (openError (resolve parent filename))) w
    | Some f =>
        deferred (record (ClosedFile (Name f)))
          (match setFile f (pb (on_pb (addDuration (getDuration f))
                                      (record (Opened (Name f)) w))) with
           | (_, Some err, p) =>
               Returned (Some err)
                 (set_pb p (on_pb (addDuration (getDuration f))
                                  (record (Opened (Name f)) w)))
           | (old, None, p) =>
               deferred (on_pb (resetFile old))
                 (playLines parseEvent ParseDuration
                    (playFile disk parseEvent getDuration ParseDuration fuel)
                    fuel f (content f)
                    (set_pb p (on_pb (addDuration (getDuration f))
                                     (record (Opened (Name f)) w))))
           end)
    end.
Proof. reflexivity. Qed.


End Stopping.

Lemma Stop_during_wait_ends_playFile_witness :
  exists w',
    waitLoop sample.parseEvent (fun _ _ w => Returned None w) 1 sample.rough
      10000000000 (set_calls [(3000000000, CallStop)] sample.world0)
      = Leave (Returned None w') /\
    closed (pb w') = true /\
    signalClosed (pb w') = true /\
    now w' = 3000000000 /\
    calls w' = [] /\
    trace w' = [].
Proof.
  exact (Stop_during_wait_ends_playFile sample.parseEvent (fun _ _ w => Returned None w)
           0 sample.rough 10000000000
           (set_calls [(3000000000, CallStop)] sample.world0) 3000000000 []
           eq_refl eq_refl eq_refl eq_refl).
Defined.


(** *** Include depth and current file *)

Lemma same_place_refl (w : world) : same_place w w.
Proof. now split. Qed.

Lemma same_place_trans (w1 w2 w3 : world) :
  same_place w1 w2 -> same_place w2 w3 -> same_place w1 w3.
Proof. intros [H1 H2] [H3 H4]. split; congruence. Qed.

Lemma balanced_trans (w w1 : world) (r : result) :
  same_place w w1 -> balanced w1 r -> balanced w r.
Proof.
  intros H. destruct r as [err w'|w'|w'|]; cbn; auto.
  - intros Hb Herr. exact (same_place_trans _ _ _ H (Hb Herr)).
  - intros Hb. exact (same_place_trans _ _ _ H Hb).
Qed.

Ltac same_pb := split; reflexivity.

Section Balance.

Variable disk : string -> option (list string).
Variable parseEvent : string -> parsed.
Variable getDuration : osFile -> time.Duration.
Variable ParseDuration : string -> option time.Duration.

Lemma perform_same_place (c : call) (p : playback) :
  depth (snd (fst (perform parseEvent c p))) = depth p /\
  file (snd (fst (perform parseEvent c p))) = file p.
Proof.
  destruct c; cbn; unfold Step_, Pause_, Continue, Stop, Inject.
  - destruct (orb _ _); cbn; auto.
  - destruct (orb _ _); cbn; auto.
  - destruct (orb _ _); cbn; auto.
  - destruct (closed p); cbn; auto.
  - destruct (closed p); cbn; auto.
    destruct (parseEvent cmd) as [[ev|ev|ev|ev|d|]|msg]; cbn; auto.
Qed.

Lemma await_same_place (deadline : option time.Time) (cs : list (time.Time * call))
    (w0 w : world) :
  same_place w0 w -> same_place w0 (selected_world (await parseEvent deadline cs w)).
Proof.
  revert w. induction cs as [|[at_ c] cs IH]; intros w Hw; cbn [await].
  - destruct (signalClosed (pb w)); [exact Hw|]. destruct deadline; exact Hw.
  - destruct (signalClosed (pb w)); [exact Hw|].
    destruct (match deadline with Some t => at_ <? t | None => true end).
    + cbn [pb set_now].
      pose proof (perform_same_place c (pb w)) as Hp.
      destruct (perform parseEvent c (pb w)) as [[err p] out]. cbn [fst snd] in Hp.
      assert (Hw1 : forall w1, pb w1 = p -> same_place w0 w1).
      { intros w1 E. destruct Hw as [H1 H2], Hp as [H3 H4].
        split; rewrite E; congruence. }
      destruct out as [|[sig|ev] out].
      * apply IH. now apply Hw1.
      * cbn. now apply Hw1.
      * apply IH. now apply Hw1.
    + destruct deadline; exact Hw.
Qed.

Lemma waitForIt_loop_pb (fuel : nat) (ev : WaitForItEvent) (timeout : time.Duration)
    (i : Z) (w : world) :
  match world_of (waitForIt_loop fuel ev timeout i w) with
  | Some w' => pb w' = pb w
  | None => True
  end.
Proof.
  revert timeout i w. induction fuel as [|fuel IH]; intros timeout i w;
    cbn [waitForIt_loop].
  - destruct (0 <? timeout); cbn; trivial.
  - destruct (0 <? timeout); [|reflexivity].
    pose proof (fbWrite_keeps w) as Hk. cbv zeta in Hk.
    destruct (fbWrite w) as [[err|] w1]; cbn [snd] in Hk; destruct Hk as (Hpb & _).
    { exact Hpb. }
    destruct (awaitFrame _ _ _) as [[[at_ io]|] rest]; [|exact Hpb].
    destruct io as [|msg|msg]; [|exact Hpb|exact Hpb].
    match goal with
    | |- match world_of (waitForIt_loop _ _ ?t ?j ?w2) with _ => _ end =>
        pose proof (IH t j w2) as Hrec;
        destruct (world_of (waitForIt_loop fuel ev t j w2)); [|trivial]
    end.
    rewrite Hrec. exact Hpb.
Qed.

Lemma waitForIt_balanced (fuel : nat) (ev : WaitForItEvent) (w0 w : world) :
  same_place w0 w -> balanced w0 (waitForIt fuel ev w).
Proof.
  intros Hw. unfold waitForIt.
  pose proof (waitForIt_loop_pb fuel ev
                (wrap64 (wrap64 (Timeout ev) * time.Nanosecond)) 0 w) as H.
  destruct (waitForIt_loop _ _ _ _ _) as [err w'|w'|w'|]; cbn in *; trivial.
  - intros _. destruct Hw. split; rewrite H; assumption.
  - destruct Hw. split; rewrite H; assumption.
Qed.

Section Rec.

Variable rec : option osFile -> string -> world -> result.
Hypothesis rec_balanced :
  forall parent filename w,
    in_int64 (depth (pb w)) -> balanced w (rec parent filename w).

Lemma rec_balanced_from (parent : option osFile) (filename : string) (w0 w : world) :
  in_int64 (depth (pb w0)) -> same_place w0 w -> balanced w0 (rec parent filename w).
Proof.
  intros Hr Hw. apply balanced_trans with w; [exact Hw|].
  apply rec_balanced. destruct Hw as [Hd _]. now rewrite Hd.
Qed.

Lemma waitLoop_balanced (fuel : nat) (f : osFile) (d : time.Duration) (w0 w : world) :
  in_int64 (depth (pb w0)) ->
  same_place w0 w ->
  match waitLoop parseEvent rec fuel f d w with
  | ToEvent w' => same_place w0 w'
  | Leave r => balanced w0 r
  end.
Proof.
  intros Hr. revert d w. induction fuel as [|fuel IH]; intros d w Hw; cbn [waitLoop].
  - exact I.
  - pose proof (await_same_place (Some (now w + Z.max 0 d)) (calls w) w0 w Hw) as Hs.
    unfold select_signal.
    destruct (await parseEvent _ (calls w) w) as [w1|sig w1|w1|w1];
      cbn [selected_world] in Hs; cbn [balanced]; trivial; try exact Hs; try (intros _; exact Hs).
    set (w2 := on_pb _ w1).
    assert (H2 : same_place w0 w2) by exact Hs.
    destruct (kind sig).
    + now apply IH.
    + unfold receive_signal.
      pose proof (await_same_place None (calls w2) w0 w2 H2) as Hrcv.
      destruct (await parseEvent None (calls w2) w2) as [w3|sig3 w3|w3|w3];
        cbn [selected_world] in Hrcv; cbn [balanced]; trivial.
      now apply IH.
    + exact H2.
    + destruct (data sig) as [ev|ev|ev|ev|desc|]; try exact H2.
      pose proof (rec_balanced_from (Some f) (File ev) w0 w2 Hr H2) as Hrec.
      destruct (rec (Some f) (File ev) w2) as [[err|] w3|w3|w3|]; try exact Hrec.
      apply IH. apply Hrec. discriminate.
    + destruct (data sig) as [ev|ev|ev|ev|desc|]; try exact H2.
      pose proof (waitForIt_balanced fuel ev w0 w2 H2) as Hwf.
      destruct (waitForIt fuel ev w2) as [[err|] w3|w3|w3|]; try exact Hwf.
      apply IH. apply Hwf. discriminate.
Qed.

Lemma doEvent_balanced (fuel : nat) (f : osFile) (res : value) (w0 w : world) :
  in_int64 (depth (pb w0)) ->
  same_place w0 w -> balanced w0 (doEvent rec fuel f res w).
Proof.
  intros Hr Hw. destruct res; cbn [doEvent balanced]; try (intros _; exact Hw).
  - now apply rec_balanced_from.
  - now apply waitForIt_balanced.
Qed.

Lemma playLines_balanced (fuel : nat) (f : osFile) (lines : list string) (w0 w : world) :
  in_int64 (depth (pb w0)) ->
  same_place w0 w ->
  balanced w0 (playLines parseEvent ParseDuration rec fuel f lines w).
Proof.
  intros Hr. revert w. induction lines as [|text rest IH]; intros w Hw; cbn [playLines].
  - intros _. exact Hw.
  - destruct (SplitN2 ":" text) as [|s0 [|s1 [|s2 l]]]; try now apply IH.
    destruct (HasPrefix s0 "#"); [now apply IH|].
    destruct (parseEvent s1) as [res|msg]; [|now apply IH].
    assert (H1 : same_place w0 (on_pb (setStep text) w)) by exact Hw.
    destruct (ParseDuration _) as [d|]; [|now apply IH].
    pose proof (waitLoop_balanced fuel f d w0 _ Hr H1) as Hwl.
    destruct (waitLoop _ _ _ _ _ _) as [w2|r]; [|exact Hwl].
    pose proof (doEvent_balanced fuel f res w0 w2 Hr Hwl) as Hd.
    destruct (doEvent rec fuel f res w2) as [[err|] w3|w3|w3|]; try exact Hd.
    apply IH. apply Hd. discriminate.
Qed.

End Rec.

Lemma playFile_balanced (fuel : nat) (parent : option osFile) (filename : string)
    (w : world) :
  in_int64 (depth (pb w)) ->
  balanced w (playFile disk parseEvent getDuration ParseDuration fuel parent filename w).
Proof.
  revert parent filename w. induction fuel as [|fuel IH]; intros parent filename w Hr;
    cbn [playFile].
  - exact I.
  - destruct (os_Open disk _) as [f|]; [|intros _; apply same_place_refl].
    set (w1 := on_pb _ _).
    assert (H1 : same_place w w1) by (subst w1; same_pb).
    unfold setFile. cbn [depth set_depth].
    destruct (100 <? add64 (depth (pb w1)) 1).
    + cbn. intros H. now elim H.
    + set (w2 := set_pb _ w1).
      assert (Hr2 : in_int64 (depth (pb w2))) by (subst w2; apply wrap64_range).
      pose proof (playLines_balanced (playFile disk parseEvent getDuration ParseDuration fuel)
                    IH fuel f (content f) w2 w2 Hr2 (same_place_refl w2)) as Hb.
      assert (Hback : forall w3, same_place w2 w3 ->
                same_place w (record (ClosedFile (Name f))
                                (on_pb (resetFile (file (pb w1))) w3))).
      { intros w3 [Hd Hf]. split; cbn.
        - rewrite Hd. subst w2. cbn. now apply sub64_add64_one.
        - reflexivity. }
      destruct (playLines _ _ _ _ _ _ _) as [err w3|w3|w3|]; cbn; trivial.
      * intros Herr. apply Hback. now apply Hb.
      * now apply Hback.
Qed.

(** When [playFile] returns with anything but the recursion-limit error,
    and also when it panics, the include depth and the current file of the
    session are what they were when it was called, however deep the
    includes went. *)
Theorem playFile_restores_depth_and_file (fuel : nat) (parent : option osFile)
    (filename : string) (w : world)
    (Hrange : minInt64 <= depth (pb w) <= maxInt64) :
  match playFile disk parseEvent getDuration ParseDuration fuel parent filename w with
  | Returned err w' =>
      err <> Some "too many recursive LoadFiles" ->
      depth (pb w') = depth (pb w) /\ file (pb w') = file (pb w)
  | Panicked w' => depth (pb w') = depth (pb w) /\ file (pb w') = file (pb w)
  | Blocked _ => True
  | OutOfFuel => True
  end.
Proof. exact (playFile_balanced fuel parent filename w Hrange). Qed.

End Balance.

Lemma playFile_restores_depth_and_file_witness :
  match sample.run 5 "/scripts/main.kb" sample.world0 with
  | Returned err w' =>
      err <> Some "too many recursive LoadFiles" ->
      depth (pb w') = 0 /\ file (pb w') = None
  | Panicked w' => depth (pb w') = 0 /\ file (pb w') = None
  | Blocked _ => True
  | OutOfFuel => True
  end.
Proof.
  exact (playFile_restores_depth_and_file sample.disk sample.parseEvent
           sample.getDuration sample.ParseDuration 5 None "/scripts/main.kb"
           sample.world0 ltac:(vm_compute; split; discriminate)).
Defined.

(** *** A script of wire events *)

Lemma outs_record_Out (ev : Event) (w : world) :
  outs (record (Out ev) w) = (outs w ++ [(now w, ev)])%list.
Proof. reflexivity. Qed.

Section Schedule.

Variable parseEvent : string -> parsed.
Variable ParseDuration : string -> option time.Duration.

Lemma select_signal_no_calls (d : time.Duration) (w : world) :
  signalClosed (pb w) = false ->
  calls w = [] ->
  select_signal parseEvent d w
    = TimerFired (set_calls [] (set_now (now w + Z.max 0 d) w)).
Proof.
  intros Hchan Hcalls. unfold select_signal. rewrite Hcalls. cbn [await].
  now rewrite Hchan.
Qed.

(** One line that holds a wire event, with nobody calling: the event is
    queued when the delay is over, and the delay is taken off the
    remaining duration. *)
Lemma playLines_wire_line (rec : option osFile -> string -> world -> result)
    (fuel : nat) (f : osFile) (l : wireLine) (rest : list string) (w : world) :
  signalClosed (pb w) = false ->
  calls w = [] ->
  wellFormed parseEvent ParseDuration l ->
  exists w1,
    playLines parseEvent ParseDuration rec (S fuel) f (lineText l :: rest) w
      = playLines parseEvent ParseDuration rec (S fuel) f rest w1 /\
    signalClosed (pb w1) = false /\
    calls w1 = [] /\
    now w1 = now w + Z.max 0 (delay l) /\
    outs w1 = (outs w ++ [(now w + Z.max 0 (delay l), event l)])%list /\
    duration (pb w1) = add64 (duration (pb w)) (neg64 (delay l)).
Proof.
  intros Hchan Hcalls (Hsep & Hcom & Hparse & Hdur).
  eexists. split.
  - cbn [playLines]. unfold lineText.
    rewrite (InterpreterFacts.SplitN2_at_separator _ _ _ Hsep), Hcom, Hparse, Hdur.
    cbn [waitLoop]. rewrite select_signal_no_calls by assumption.
    cbn [doEvent]. reflexivity.
  - cbn. repeat split; try assumption; reflexivity.
Qed.

(** A script whose lines all hold wire events, played with nobody calling:
    every event is queued, in the order of the lines, each when the delays
    up to and including its own have passed (a negative delay counts as
    none); the delays are taken off the remaining duration one by one. *)
Theorem wire_script_plays_on_schedule (rec : option osFile -> string -> world -> result)
    (fuel : nat) (f : osFile) (ls : list wireLine) (w : world)
    (Hchan : signalClosed (pb w) = false)
    (Hcalls : calls w = [])
    (Hlines : Forall (wellFormed parseEvent ParseDuration) ls) :
  exists w',
    playLines parseEvent ParseDuration rec (S fuel) f (map lineText ls) w
      = Returned None w' /\
    outs w' = (outs w ++ timeline (now w) ls)%list /\
    duration (pb w') = charged (duration (pb w)) ls /\
    calls w' = [].
Proof.
  revert w Hchan Hcalls. induction Hlines as [|l ls Hl _ IH]; intros w Hchan Hcalls.
  - exists w. cbn. rewrite app_nil_r. now repeat split.
  - destruct (playLines_wire_line rec fuel f l (map lineText ls) w Hchan Hcalls Hl)
      as (w1 & Hstep & Hchan1 & Hcalls1 & Hnow1 & Houts1 & Hdur1).
    destruct (IH w1 Hchan1 Hcalls1) as (w' & Hr & Ho & Hd & Hc).
    exists w'. cbn [map]. rewrite Hstep. split; [exact Hr|].
    rewrite Ho, Hd, Houts1, Hnow1, Hdur1. cbn [timeline charged fold_left].
    rewrite <- app_assoc. now repeat split.
Qed.

End Schedule.

Lemma wire_script_plays_on_schedule_witness :
  exists w',
    playLines sample.parseEvent sample.ParseDuration (fun _ _ w => Returned None w) 1
      sample.rough
      (map lineText
         [ {| delayText := "0"; directive := "KeyEvent,true,a"; delay := 0;
              event := WireEvent "KeyEvent,true,a" |};
           {| delayText := "1000000000"; directive := "KeyEvent,true,b";
              delay := 1000000000; event := WireEvent "KeyEvent,true,b" |} ])
      sample.world0
      = Returned None w' /\
    outs w' = [(0, WireEvent "KeyEvent,true,a");
               (1000000000, WireEvent "KeyEvent,true,b")] /\
    duration (pb w') = -1000000000 /\
    calls w' = [].
Proof.
  exact (wire_script_plays_on_schedule sample.parseEvent sample.ParseDuration
           (fun _ _ w => Returned None w) 0 sample.rough
           [ {| delayText := "0"; directive := "KeyEvent,true,a"; delay := 0;
                event := WireEvent "KeyEvent,true,a" |};
             {| delayText := "1000000000"; directive := "KeyEvent,true,b";
                delay := 1000000000; event := WireEvent "KeyEvent,true,b" |} ]
           sample.world0 eq_refl eq_refl
           ltac:(repeat constructor)).
Defined.

(** *** Includes of files of wire events *)

Lemma outs_same_trace (w w1 : world) : trace w1 = trace w -> outs w1 = outs w.
Proof. unfold outs. now intros ->. Qed.

Section Splice.

Variable disk : string -> option (list string).
Variable parseEvent : string -> parsed.
Variable getDuration : osFile -> time.Duration.
Variable ParseDuration : string -> option time.Duration.

Local Abbreviation playFile := (vnc.playFile disk parseEvent getDuration ParseDuration).
Local Abbreviation playLines := (vnc.playLines parseEvent ParseDuration).

Lemma playLines_wire_lines (rec : option osFile -> string -> world -> result)
    (fuel : nat) (f : osFile) (ls : list wireLine) (rest : list string) (w : world) :
  signalClosed (pb w) = false ->
  calls w = [] ->
  Forall (wellFormed parseEvent ParseDuration) ls ->
  exists w1,
    playLines rec (S fuel) f (map lineText ls ++ rest) w
      = playLines rec (S fuel) f rest w1 /\
    after_stretch w w1 (finish (now w) ls) (timeline (now w) ls).
Proof.
  intros Hchan Hcalls Hls. revert w Hchan Hcalls.
  induction Hls as [|l ls (Hsep & Hcom & Hparse & Hdur) _ IH]; intros w Hchan Hcalls.
  - exists w. split; [reflexivity|]. unfold after_stretch. cbn.
    rewrite app_nil_r. now repeat split.
  - set (w1 := record (Out (event l))
                 (on_pb (addDuration (neg64 (delay l)))
                    (set_calls [] (set_now (now w + Z.max 0 (delay l))
                                     (on_pb (setStep (lineText l)) w))))).
    destruct (IH w1 Hchan eq_refl) as (w2 & Hr & Hc2 & Hk2 & Hn2 & Ho2 & Hd2 & Hf2).
    exists w2. split.
    + rewrite <- Hr. cbn [map app vnc.playLines]. unfold lineText.
      rewrite (InterpreterFacts.SplitN2_at_separator _ _ _ Hsep), Hcom, Hparse, Hdur.
      cbn [waitLoop]. rewrite select_signal_no_calls by assumption.
      cbn [doEvent]. reflexivity.
    + unfold after_stretch. cbn [finish timeline].
      repeat split; try assumption.
      rewrite Ho2. subst w1. rewrite outs_record_Out. cbn [now on_pb set_pb set_calls set_now].
      rewrite <- app_assoc. f_equal.
Qed.

(** A file of wire events, played by [playFile]. *)
Lemma playFile_wire_file (fuel : nat) (parent : option osFile) (filename : string)
    (ls : list wireLine) (w : world) :
  signalClosed (pb w) = false ->
  calls w = [] ->
  minInt64 <= depth (pb w) < 100 ->
  disk (resolve parent filename) = Some (map lineText ls) ->
  Forall (wellFormed parseEvent ParseDuration) ls ->
  exists w1,
    playFile (S (S fuel)) parent filename w = Returned None w1 /\
    after_stretch w w1 (finish (now w) ls) (timeline (now w) ls).
Proof.
  intros Hchan Hcalls Hdepth Hfile Hls.
  rewrite playFile_step. unfold os_Open. rewrite Hfile. cbn [Name content].
  set (f := {| Name := resolve parent filename; content := map lineText ls |}).
  set (w1 := on_pb (addDuration (getDuration f)) (record (Opened (resolve parent filename)) w)).
  destruct (setFile_below_limit f (pb w1)) as [Hset Hreset];
    [exact (proj1 Hdepth) | exact (proj2 Hdepth) |].
  rewrite Hset in Hreset |- *. cbn [snd] in Hreset.
  set (w2 := set_pb (set_file (Some f) (set_depth (depth (pb w1) + 1) (pb w1))) w1).
  destruct (playLines_wire_lines (playFile (S fuel)) fuel f ls [] w2 Hchan Hcalls Hls)
    as (w3 & Hr & Hc3 & Hk3 & Hn3 & Ho3 & Hd3 & Hf3).
  rewrite app_nil_r in Hr. rewrite Hr. cbn [vnc.playLines deferred].
  eexists. split; [reflexivity|].
  unfold after_stretch.
  cbn [pb set_pb on_pb record now calls depth file signalClosed resetFile
       set_file set_depth].
  repeat split.
  - exact Hc3.
  - exact Hk3.
  - exact Hn3.
  - transitivity (outs w3); [reflexivity|]. rewrite Ho3. reflexivity.
  - rewrite Hd3. subst w2. cbn [pb set_pb depth set_file set_depth].
    unfold sub64. replace (depth (pb w1) + 1 - 1) with (depth (pb w1)) by lia.
    rewrite wrap64_small; [reflexivity|]. subst w1. cbn. int64.
Qed.

Lemma playLines_entry (n fuel : nat) (f : osFile) (en : entry) (rest : list string)
    (w : world) :
  signalClosed (pb w) = false ->
  calls w = [] ->
  minInt64 <= depth (pb w) < 100 ->
  entryOK disk parseEvent ParseDuration f en ->
  exists w1,
    playLines (playFile (S (S n))) (S fuel) f (entryText en :: rest) w
      = playLines (playFile (S (S n))) (S fuel) f rest w1 /\
    after_stretch w w1 (through (now w) [en]) (schedule (now w) [en]).
Proof.
  intros Hchan Hcalls Hdepth Hok. destruct en as [l|s0 s1 d name body].
  - destruct (playLines_wire_lines (playFile (S (S n))) fuel f [l] rest w Hchan Hcalls)
      as (w1 & Hr & Ha); [now constructor|].
    exists w1. split; [exact Hr | exact Ha].
  - destruct Hok as (Hsep & Hcom & Hparse & Hdur & Hfile & Hbody).
    set (w1 := on_pb (addDuration (neg64 d))
                 (set_calls [] (set_now (now w + Z.max 0 d)
                                  (on_pb (setStep (String.append s0 (String ":" s1))) w)))).
    destruct (playFile_wire_file n (Some f) name body w1 Hchan eq_refl Hdepth Hfile Hbody)
      as (w2 & Hr & Hc2 & Hk2 & Hn2 & Ho2 & Hd2 & Hf2).
    exists w2. split.
    + cbn [entryText vnc.playLines].
      rewrite (InterpreterFacts.SplitN2_at_separator _ _ _ Hsep), Hcom, Hparse, Hdur.
      cbn [waitLoop]. rewrite select_signal_no_calls by assumption.
      cbn [doEvent File].
      match goal with
      | |- context [vnc.playFile _ _ _ _ _ _ _ ?wx] => change wx with w1
      end.
      now rewrite Hr.
    + unfold after_stretch. cbn [through schedule]. rewrite app_nil_r.
      repeat split; assumption.
Qed.

Lemma playLines_entries (n fuel : nat) (f : osFile) (es : list entry)
    (rest : list string) (w : world) :
  signalClosed (pb w) = false ->
  calls w = [] ->
  minInt64 <= depth (pb w) < 100 ->
  Forall (entryOK disk parseEvent ParseDuration f) es ->
  exists w1,
    playLines (playFile (S (S n))) (S fuel) f (map entryText es ++ rest) w
      = playLines (playFile (S (S n))) (S fuel) f rest w1 /\
    after_stretch w w1 (through (now w) es) (schedule (now w) es).
Proof.
  intros Hchan Hcalls Hdepth Hes. revert w Hchan Hcalls Hdepth.
  induction Hes as [|en es Hen _ IH]; intros w Hchan Hcalls Hdepth.
  - exists w. split; [reflexivity|]. unfold after_stretch. cbn.
    rewrite app_nil_r. now repeat split.
  - destruct (playLines_entry n fuel f en (map entryText es ++ rest) w
                Hchan Hcalls Hdepth Hen)
      as (w1 & Hr1 & Hc1 & Hk1 & Hn1 & Ho1 & Hd1 & Hf1).
    destruct (IH w1 Hc1 Hk1 ltac:(now rewrite Hd1))
      as (w2 & Hr2 & Hc2 & Hk2 & Hn2 & Ho2 & Hd2 & Hf2).
    exists w2. split; [cbn [map app]; now rewrite Hr1|].
    unfold after_stretch. repeat split; try assumption; try congruence.
    + rewrite Hn2, Hn1. destruct en; reflexivity.
    + rewrite Ho2, Ho1, Hn1, <- app_assoc. f_equal.
      destruct en as [l|s0 s1 d name body]; cbn [schedule through].
      * reflexivity.
      * now rewrite app_nil_r.
Qed.

End Splice.

Section Includes.

Variable disk : string -> option (list string).
Variable parseEvent : string -> parsed.
Variable getDuration : osFile -> time.Duration.
Variable ParseDuration : string -> option time.Duration.

(** A script of wire events and of includes of files of wire events,
    played with nobody calling: [playFile] returns with no error, and the
    events are queued in the order of the script, those of an included
    file in the place of its include, each at the time the delays before
    it add up to. An included file is looked up from the directory of the
    including file. Depth and current file are as before. *)
Theorem includes_are_spliced (fuel : nat) (parent : option osFile) (filename : string)
    (es : list entry) (w : world)
    (Hchan : signalClosed (pb w) = false)
    (Hcalls : calls w = [])
    (Hdepth : minInt64 <= depth (pb w) < 99)
    (Hfile : disk (resolve parent filename) = Some (map entryText es))
    (Hes : Forall (entryOK disk parseEvent ParseDuration
                     {| Name := resolve parent filename;
                        content := map entryText es |}) es) :
  exists w',
    playFile disk parseEvent getDuration ParseDuration (S (S (S fuel))) parent filename w
      = Returned None w' /\
    outs w' = (outs w ++ schedule (now w) es)%list /\
    now w' = through (now w) es /\
    depth (pb w') = depth (pb w) /\
    file (pb w') = file (pb w).
Proof.
  rewrite playFile_step. unfold os_Open. rewrite Hfile. cbn [Name content].
  set (f := {| Name := resolve parent filename; content := map entryText es |}) in *.
  set (w1 := on_pb (addDuration (getDuration f)) (record (Opened (resolve parent filename)) w)).
  assert (Hd1 : depth (pb w1) = depth (pb w)) by reflexivity.
  destruct (setFile_below_limit f (pb w1)) as [Hset Hreset];
    [rewrite Hd1; lia | rewrite Hd1; lia |].
  rewrite Hset in Hreset |- *. cbn [snd] in Hreset.
  set (w2 := set_pb (set_file (Some f) (set_depth (depth (pb w1) + 1) (pb w1))) w1).
  assert (Hd2 : minInt64 <= depth (pb w2) < 100).
  { change (depth (pb w2)) with (depth (pb w1) + 1). rewrite Hd1. lia. }
  destruct (playLines_entries disk parseEvent getDuration ParseDuration
              fuel (S fuel) f es [] w2 Hchan Hcalls Hd2 Hes)
    as (w3 & Hr & Hc3 & Hk3 & Hn3 & Ho3 & Hd3 & Hf3).
  rewrite app_nil_r in Hr. rewrite Hr. cbn [vnc.playLines deferred].
  eexists. split; [reflexivity|].
  cbn [pb set_pb on_pb record now calls depth file resetFile set_file set_depth].
  repeat split.
  - transitivity (outs w3); [reflexivity|]. rewrite Ho3. reflexivity.
  - exact Hn3.
  - rewrite Hd3. subst w2. cbn [pb set_pb depth set_file set_depth].
    unfold sub64. replace (depth (pb w1) + 1 - 1) with (depth (pb w1)) by lia.
    rewrite wrap64_small; [reflexivity|]. rewrite Hd1. int64.
Qed.

End Includes.

Lemma includes_are_spliced_witness :
  exists w',
    sample.run 3 "/scripts/main.kb" sample.world0 = Returned None w' /\
    outs w' = [(0, WireEvent "KeyEvent,true,a"); (0, WireEvent "KeyEvent,true,b");
               (0, WireEvent "KeyEvent,true,c")] /\
    now w' = 0 /\
    depth (pb w') = 0 /\
    file (pb w') = None.
Proof.
  exact (includes_are_spliced sample.disk sample.parseEvent sample.getDuration
           sample.ParseDuration 0 None "/scripts/main.kb"
           [ Wire {| delayText := "0"; directive := "KeyEvent,true,a"; delay := 0;
                     event := WireEvent "KeyEvent,true,a" |};
             Include "0" "LoadFile,sub/part.kb" 0 "sub/part.kb"
               [ {| delayText := "0"; directive := "KeyEvent,true,b"; delay := 0;
                    event := WireEvent "KeyEvent,true,b" |} ];
             Wire {| delayText := "0"; directive := "KeyEvent,true,c"; delay := 0;
                     event := WireEvent "KeyEvent,true,c" |} ]
           sample.world0 eq_refl eq_refl
           ltac:(vm_compute; split; [discriminate | reflexivity]) eq_refl
           ltac:(repeat constructor)).
Defined.

End InterpreterMore.

(** ** Properties of the search filter *)

Module FilterFacts.
Import Text Search Filter phrases.
Local Open Scope list_scope.

(** *** [postfix] *)

Lemma plain_is_operand (a : string) :
  plain a ->
  Nat.eqb (String.length a) 0 = false /\
  orb (boolOps a) (String.eqb a "(") = false /\
  String.eqb a ")" = false.
Proof.
  intros (Hne & Hop & Hopen & Hclose). repeat split.
  - destruct a; [now elim Hne | reflexivity].
  - rewrite Hop. cbn. now apply String.eqb_neq.
  - now apply String.eqb_neq.
Qed.

Lemma postfix_terms_plain (a : string) (rest out st : list string) :
  plain a ->
  postfix_terms (a :: rest) out st = postfix_terms rest (out ++ [a]) st.
Proof.
  intros H. destruct (plain_is_operand a H) as (H1 & H2 & H3).
  cbn [postfix_terms]. now rewrite H1, H2, H3.
Qed.

Lemma postfix_terms_operator (op : string) (rest out st : list string) :
  boolOps op = true ->
  postfix_terms (op :: rest) out st = postfix_terms rest out (op :: st).
Proof.
  intros H. cbn [postfix_terms].
  assert (Hlen : Nat.eqb (String.length op) 0 = false).
  { destruct op; [discriminate H | reflexivity]. }
  now rewrite Hlen, H.
Qed.

Lemma postfix_terms_phrase (p : phrase) (more out st : list string) :
  plainTerms p ->
  postfix_terms (tokens p ++ more) out st
  = postfix_terms more (out ++ operands p) (rev (operators p) ++ st).
Proof.
  revert out st. induction p as [a|a c rest IH|rest IH]; intros out st Hp;
    cbn [tokens operands operators plainTerms app rev] in *.
  - now apply postfix_terms_plain.
  - destruct Hp as [Ha Hrest].
    rewrite postfix_terms_plain by exact Ha.
    rewrite postfix_terms_operator by (now destruct c).
    rewrite IH by exact Hrest. now rewrite <- !app_assoc.
  - rewrite postfix_terms_operator by reflexivity.
    rewrite IH by exact Hp. now rewrite <- !app_assoc.
Qed.

Lemma postfix_phrase (p : phrase) :
  plainTerms p -> postfix (tokens p) = Some (operands p ++ rev (operators p)).
Proof.
  intros Hp. unfold postfix.
  rewrite <- (app_nil_r (tokens p)), postfix_terms_phrase by exact Hp.
  cbn. now rewrite app_nil_r.
Qed.

Lemma popToOpen_without_open (st out : list string) :
  Forall (fun t => t <> "(") st -> popToOpen st out = None.
Proof.
  intros H. revert out. induction H as [|t st Ht _ IH]; intros out; cbn.
  - reflexivity.
  - apply String.eqb_neq in Ht. rewrite Ht. apply IH.
Qed.

Lemma postfix_terms_unmatched (before after out st : list string) :
  Forall (fun t => t <> "(") before ->
  Forall (fun t => t <> "(") st ->
  postfix_terms (before ++ ")" :: after) out st = None.
Proof.
  intros Hb. revert out st. induction Hb as [|t before Ht _ IH]; intros out st Hst.
  - cbn. now rewrite popToOpen_without_open.
  - cbn [app postfix_terms].
    destruct (Nat.eqb (String.length t) 0); [now apply IH|].
    apply String.eqb_neq in Ht as Ht'. rewrite Ht', orb_false_r.
    destruct (boolOps t).
    + apply IH. now constructor.
    + destruct (String.eqb t ")").
      * now rewrite popToOpen_without_open.
      * now apply IH.
Qed.

(** A closing parenthesis with no opening parenthesis before it makes
    [postfix] throw, whatever else the terms are. *)
Theorem postfix_throws_on_unmatched_close (before after : list string)
    (Hopen : Forall (fun t => t <> "(") before) :
  postfix (before ++ ")" :: after) = None.
Proof. apply postfix_terms_unmatched; [exact Hopen | constructor]. Qed.

Lemma postfix_terms_flat (terms out st : list string) :
  Forall (fun t => t <> "(" /\ t <> ")") terms ->
  postfix_terms terms out st
  = Some (out
          ++ filter (fun t => negb (orb (Nat.eqb (String.length t) 0) (boolOps t))) terms
          ++ rev (filter boolOps terms) ++ st).
Proof.
  intros H. revert out st. induction H as [|t terms [Ho Hc] _ IH]; intros out st.
  - reflexivity.
  - cbn [postfix_terms filter].
    apply String.eqb_neq in Ho. apply String.eqb_neq in Hc.
    destruct (Nat.eqb (String.length t) 0) eqn:Hlen.
    + assert (Hb : boolOps t = false) by (destruct t; [reflexivity | discriminate Hlen]).
      rewrite Hb. cbn. apply IH.
    + rewrite Ho, orb_false_r. destruct (boolOps t); cbn.
      * rewrite IH. now rewrite <- !app_assoc.
      * rewrite Hc, IH. now rewrite <- !app_assoc.
Qed.

(** Without parentheses among the terms, [postfix] does not throw: it
    gives the operands in their order (the empty terms left out) and then
    the operators in the reverse of theirs. *)
Theorem postfix_without_parentheses (terms : list string)
    (Hflat : Forall (fun t => t <> "(" /\ t <> ")") terms) :
  postfix terms
  = Some (filter (fun t => negb (orb (Nat.eqb (String.length t) 0) (boolOps t))) terms
          ++ rev (filter boolOps terms)).
Proof.
  unfold postfix. rewrite postfix_terms_flat by exact Hflat.
  cbn. now rewrite app_nil_r.
Qed.

Lemma postfix_throws_on_unmatched_close_witness :
  postfix (["web"; "or"] ++ ")" :: ["and"; "db"]) = None.
Proof.
  exact (postfix_throws_on_unmatched_close ["web"; "or"] ["and"; "db"]
           ltac:(repeat constructor; discriminate)).
Defined.

Lemma postfix_without_parentheses_witness :
  postfix ["not"; "web"; ""; "and"; "db"] = Some ["web"; "db"; "and"; "not"].
Proof.
  exact (postfix_without_parentheses ["not"; "web"; ""; "and"; "db"]
           ltac:(repeat constructor; discriminate)).
Defined.

(** *** [createTree] and [evaluate] *)

Lemma createTree_terms_operand (a : string) (rest : list string)
    (stack : list ExpressionTree) :
  boolOps a = false ->
  createTree_terms (a :: rest) stack = createTree_terms rest (operand a :: stack).
Proof. intros H. cbn [createTree_terms]. now rewrite H. Qed.

Lemma createTree_terms_operands (terms more : list string)
    (stack : list ExpressionTree) :
  Forall plain terms ->
  createTree_terms (terms ++ more) stack
  = createTree_terms more (rev (map operand terms) ++ stack).
Proof.
  intros H. revert stack. induction H as [|a terms (_ & Hop & _) _ IH]; intros stack.
  - reflexivity.
  - cbn [app map rev]. rewrite createTree_terms_operand by exact Hop.
    rewrite IH. now rewrite <- app_assoc.
Qed.

Lemma operands_plain (p : phrase) : plainTerms p -> Forall plain (operands p).
Proof.
  induction p as [a|a c rest IH|rest IH]; cbn.
  - intros H. now constructor.
  - intros [Ha Hr]. constructor; auto.
  - exact IH.
Qed.

(** The operators, applied in the reverse of their reading order to the
    stack of the operands, leave the tree of the phrase. *)
Lemma createTree_terms_operators (p : phrase) (more : list string)
    (stack : list ExpressionTree) :
  createTree_terms (rev (operators p) ++ more)
                   (rev (map operand (operands p)) ++ stack)
  = createTree_terms more (build p :: stack).
Proof.
  revert more stack. induction p as [a|a c rest IH|rest IH]; intros more stack;
    cbn [operators operands build map rev].
  - reflexivity.
  - rewrite <- !app_assoc. cbn [app]. rewrite IH.
    cbn [createTree_terms]. now destruct c.
  - rewrite <- !app_assoc. cbn [app]. rewrite IH.
    cbn [createTree_terms]. cbn. now destruct stack.
Qed.

Lemma createTree_phrase (p : phrase) :
  plainTerms p ->
  createTree (operands p ++ rev (operators p)) = Some (build p).
Proof.
  intros Hp. unfold createTree.
  rewrite createTree_terms_operands by now apply operands_plain.
  rewrite <- (app_nil_r (rev (operators p))), createTree_terms_operators.
  reflexivity.
Qed.

Section Meaning.

Variable IPV4 : Type.
Variable setAddress : string -> option IPV4.
Variable contains : IPV4 -> string -> bool.

Local Abbreviation evaluate := (Filter.evaluate IPV4 setAddress contains).
Local Abbreviation matches := (phrases.matches IPV4 setAddress contains).
Local Abbreviation meaning := (phrases.meaning IPV4 setAddress contains).

Lemma evaluate_operand (a : string) (vm : VM) :
  evaluate (operand a) vm = Some (matches a vm).
Proof. unfold operand, phrases.matches. now destruct (keywordEscape a). Qed.

Lemma evaluate_build (p : phrase) (vm : VM) :
  evaluate (build p) vm = Some (meaning p vm).
Proof.
  induction p as [a|a c rest IH|rest IH]; cbn [build phrases.meaning].
  - apply evaluate_operand.
  - cbn [Filter.evaluate]. rewrite IH, evaluate_operand.
    destruct c; cbn; f_equal; [apply andb_comm | apply orb_comm].
  - cbn [Filter.evaluate]. rewrite IH. reflexivity.
Qed.

(** A filter without parentheses is read from the right: [postfix] and
    [createTree] make of its terms the tree in which [and], [or] and
    [not] each take everything that follows as their right side, with no
    precedence among them, and [evaluate] gives its value: a term joined
    by [and] (or [or]) holds when the term matches and (or) the rest
    holds, [not] holds when the rest does not. *)
Theorem filter_is_read_from_the_right (p : phrase) (vm : VM)
    (Hplain : plainTerms p) :
  exists postFix tree,
    postfix (tokens p) = Some postFix /\
    createTree postFix = Some tree /\
    evaluate tree vm = Some (meaning p vm).
Proof.
  exists (operands p ++ rev (operators p)), (build p). repeat split.
  - now apply postfix_phrase.
  - now apply createTree_phrase.
  - apply evaluate_build.
Qed.

End Meaning.

Lemma filter_is_read_from_the_right_witness :
  exists postFix tree,
    postfix ["web"; "and"; "beta"; "or"; "alpha"] = Some postFix /\
    createTree postFix = Some tree /\
    Filter.evaluate unit (fun _ => None) (fun _ _ => false) tree sample.web1
      = Some (phrases.meaning unit (fun _ => None) (fun _ _ => false)
                (Joined "web" And (Joined "beta" Or (Term "alpha"))) sample.web1).
Proof.
  exact (filter_is_read_from_the_right unit (fun _ => None) (fun _ _ => false)
           (Joined "web" And (Joined "beta" Or (Term "alpha"))) sample.web1
           ltac:(cbn; repeat split; discriminate)).
Defined.

(** *** Trees that [createTree] makes *)

Lemma tree_induction (P : ExpressionTree -> Prop) :
  (forall term fields lft rgt,
      match lft with Some l => P l | None => True end ->
      match rgt with Some r => P r | None => True end ->
      P (Tree term fields lft rgt)) ->
  forall t, P t.
Proof.
  intros H. fix IH 1. intros [term fields lft rgt]. apply H.
  - destruct lft as [l|]; [apply IH | exact I].
  - destruct rgt as [r|]; [apply IH | exact I].
Qed.

Lemma wellBuilt_operand (a : string) : wellBuilt (operand a).
Proof. unfold operand. destruct (keywordEscape a); cbn; discriminate. Qed.

Lemma createTree_terms_wellBuilt (postFix : list string) (stack : list ExpressionTree)
    (tree : ExpressionTree) :
  Forall wellBuilt stack ->
  createTree_terms postFix stack = Some tree ->
  wellBuilt tree.
Proof.
  revert stack. induction postFix as [|term rest IH]; intros stack Hst; cbn [createTree_terms].
  - destruct Hst as [|t st Ht _]; [discriminate|]. now intros [= <-].
  - destruct (boolOps term).
    + destruct Hst as [|t1 st H1 Hst]; [discriminate|].
      destruct Hst as [|t2 st H2 Hst].
      * apply IH. constructor; [|constructor]. cbn. now split.
      * destruct (negb (String.eqb term "not")); apply IH.
        -- constructor; [|exact Hst]. cbn. now split.
        -- constructor; [|now constructor]. cbn. now split.
    + apply IH. constructor; [apply wellBuilt_operand | exact Hst].
Qed.

Section Total.

Variable IPV4 : Type.
Variable setAddress : string -> option IPV4.
Variable contains : IPV4 -> string -> bool.

Local Abbreviation evaluate := (Filter.evaluate IPV4 setAddress contains).

Lemma evaluate_wellBuilt (vm : VM) (t : ExpressionTree) :
  wellBuilt t -> exists b, evaluate t vm = Some b.
Proof.
  induction t as [term fields lft rgt IHl IHr] using tree_induction.
  intros Hw.
  assert (Hr : exists b, match rgt with
                         | Some r => evaluate r vm
                         | None => Some false
                         end = Some b).
  { destruct rgt as [r|]; [|eauto]. apply IHr.
    destruct lft; cbn in Hw; tauto. }
  assert (Hl : exists b, match lft with
                         | Some l => evaluate l vm
                         | None => Some false
                         end = Some b).
  { destruct lft as [l|]; [|eauto]. apply IHl.
    destruct rgt; cbn in Hw; tauto. }
  destruct Hr as [br Hr], Hl as [bl Hl].
  destruct lft as [l|], rgt as [r|]; cbn [Filter.evaluate]; rewrite ?Hr, ?Hl.
  1-3: destruct (String.eqb term "and"); [eauto|];
       destruct (String.eqb term "or"); [eauto|];
       destruct (String.eqb term "not"); eauto.
  cbn in Hw. destruct fields; [eauto | now elim Hw].
Qed.

(** [evaluate] does not throw on a tree that [createTree] returned: every
    node without children carries search fields, so [match] never meets
    the null fields of an operator node. *)
Theorem built_trees_evaluate (postFix : list string) (tree : ExpressionTree) (vm : VM)
    (Hbuilt : createTree postFix = Some tree) :
  exists b, evaluate tree vm = Some b.
Proof.
  apply evaluate_wellBuilt.
  exact (createTree_terms_wellBuilt postFix [] tree (Forall_nil _) Hbuilt).
Qed.

End Total.

Lemma built_trees_evaluate_witness :
  exists b,
    Filter.evaluate unit (fun _ => None) (fun _ _ => false)
      (Tree "and" None None
         (Some (Tree "web" (Some ["Name"; "Vlans"; "Host"; "Tags"]) None None)))
      sample.web1 = Some b.
Proof.
  exact (built_trees_evaluate unit (fun _ => None) (fun _ _ => false)
           ["web"; "and"] _ sample.web1 eq_refl).
Defined.

(** *** [BuildTree] on plain words *)

Lemma has_char_append (c : ascii) (a b : string) :
  notions.has_char c (String.append a b)
  = orb (notions.has_char c a) (notions.has_char c b).
Proof.
  induction a as [|x a IH]; cbn; [reflexivity|]. now rewrite IH, orb_assoc.
Qed.

Lemma split_without_separator (sep : ascii) (s : string) :
  notions.has_char sep s = false -> split sep s = [s].
Proof.
  induction s as [|c s IH]; cbn; intros H; [reflexivity|].
  apply orb_false_iff in H. destruct H as [Hc Hs]. now rewrite Hc, (IH Hs).
Qed.

Lemma split_at_separator (sep : ascii) (a b : string) :
  notions.has_char sep a = false ->
  split sep (String.append a (String sep b)) = a :: split sep b.
Proof.
  induction a as [|c a IH]; cbn; intros H.
  - now rewrite Ascii.eqb_refl.
  - apply orb_false_iff in H. destruct H as [Hc Ha]. now rewrite Hc, (IH Ha).
Qed.

Lemma split_pieces (sep : ascii) (s : string) :
  Forall (fun t => notions.has_char sep t = false) (split sep s).
Proof.
  induction s as [|c s IH]; cbn.
  - now constructor.
  - destruct (Ascii.eqb c sep) eqn:Hc.
    + now constructor.
    + destruct (split sep s) as [|p ps].
      * constructor; [cbn; now rewrite Hc | constructor].
      * inversion IH as [|? ? Hp Hps]; subst.
        constructor; [cbn; now rewrite Hc, Hp | exact Hps].
Qed.

Lemma split_joined_by_and (first : string) (others : list string) :
  Forall (fun t => notions.has_char " " t = false) (first :: others) ->
  split " " (String.concat " and " (first :: others)) = tokens (allOf first others).
Proof.
  revert first. induction others as [|next others IH]; intros first H.
  - cbn. apply split_without_separator. now inversion H.
  - inversion H as [|? ? Hfirst Hrest]; subst.
    change (String.concat " and " (first :: next :: others))
      with (String.append first
              (String " " (String.append "and"
                             (String " " (String.concat " and " (next :: others)))))).
    rewrite split_at_separator by exact Hfirst.
    rewrite split_at_separator by reflexivity.
    now rewrite IH.
Qed.

Lemma plainTerms_allOf (first : string) (others : list string) :
  Forall plain (first :: others) -> plainTerms (allOf first others).
Proof.
  revert first. induction others as [|next others IH]; intros first H;
    inversion H as [|? ? Hfirst Hrest]; subst; cbn.
  - exact Hfirst.
  - split; [exact Hfirst | now apply IH].
Qed.

Lemma no_operator_among_plain (ws : list string) :
  Forall plain ws -> existsb boolOps ws = false.
Proof.
  induction 1 as [|a ws (_ & Hop & _) _ IH]; cbn; [reflexivity|]. now rewrite Hop.
Qed.

Lemma postFix_not_a_lone_operator (first : string) (others : list string) :
  Forall plain (first :: others) ->
  let postFix := operands (allOf first others) ++ rev (operators (allOf first others)) in
  match postFix with
  | [only] => if boolOps only then None else createTree postFix
  | _ => createTree postFix
  end = createTree postFix.
Proof.
  intros H. inversion H as [|? ? (_ & Hop & _) _]; subst.
  destruct others as [|next others]; cbn.
  - now rewrite Hop.
  - destruct (operands (allOf next others)) eqn:E; [|reflexivity].
    destruct others; discriminate E.
Qed.

Section Words.

Variable IPV4 : Type.
Variable setAddress : string -> option IPV4.
Variable contains : IPV4 -> string -> bool.

Local Abbreviation evaluate := (Filter.evaluate IPV4 setAddress contains).
Local Abbreviation matches := (phrases.matches IPV4 setAddress contains).
Local Abbreviation meaning := (phrases.meaning IPV4 setAddress contains).

Lemma meaning_allOf (first : string) (others : list string) (vm : VM) :
  meaning (allOf first others) vm = forallb (fun a => matches a vm) (first :: others).
Proof.
  revert first. induction others as [|next others IH]; intros first; cbn.
  - now rewrite andb_true_r.
  - f_equal. apply IH.
Qed.

(** A filter of plain words, with no operator and no parenthesis among
    them, asks for all of them: [BuildTree] joins the words by [and], and
    the tree it returns evaluates to true on exactly the vms that match
    every word. The words are those of the filter once it is trimmed and
    put in lower case. *)
Theorem plain_words_must_all_match (searchFilter first : string) (others : list string)
    (vm : VM)
    (Hgroups : groups (trim searchFilter) = false)
    (Hwords : split " " (toLowerCase (trim searchFilter)) = first :: others)
    (Hplain : Forall plain (first :: others)) :
  exists tree,
    BuildTree searchFilter = Some tree /\
    evaluate tree vm = Some (forallb (fun a => matches a vm) (first :: others)).
Proof.
  exists (build (allOf first others)). split.
  - unfold BuildTree. rewrite Hgroups.
    destruct (trim searchFilter) as [|c s] eqn:Htrim.
    { cbn in Hwords. injection Hwords as <- _.
      inversion Hplain as [|? ? (Hne & _) _]. now elim Hne. }
    cbn [String.length Nat.eqb]. rewrite Hwords.
    rewrite (no_operator_among_plain _ Hplain).
    rewrite split_joined_by_and by (rewrite <- Hwords; apply split_pieces).
    rewrite postfix_phrase by now apply plainTerms_allOf.
    rewrite (postFix_not_a_lone_operator first others Hplain).
    apply createTree_phrase. now apply plainTerms_allOf.
  - rewrite evaluate_build. f_equal. apply meaning_allOf.
Qed.

End Words.

Lemma plain_words_must_all_match_witness :
  exists tree,
    BuildTree "  Web Alpha " = Some tree /\
    Filter.evaluate unit (fun _ => None) (fun _ _ => false) tree sample.web1
      = Some (forallb (fun a => phrases.matches unit (fun _ => None) (fun _ _ => false)
                                  a sample.web1) ["web"; "alpha"]).
Proof.
  exact (plain_words_must_all_match unit (fun _ => None) (fun _ _ => false)
           "  Web Alpha " "web" ["alpha"] sample.web1 eq_refl eq_refl
           ltac:(repeat constructor; discriminate)).
Defined.

(** *** [match] on the default fields *)

Section Default.

Variable IPV4 : Type.
Variable setAddress : string -> option IPV4.
Variable contains : IPV4 -> string -> bool.

(** On the default search fields [match] returns true exactly when the
    term occurs in the name of the vm, in one of its vlans, in its host
    or in its tags, each taken in lower case. *)
Theorem match_on_default_fields (vm : VM) (term : string) :
  match_ IPV4 setAddress contains defaultSearchFields vm term
  = orb (includes (toLowerCase (name vm)) term)
      (orb (existsb (fun v => includes (trim (toLowerCase v)) term)
                    (split "," (stripBrackets (vlan vm))))
         (orb (includes (toLowerCase (host vm)) term)
              (includes (toLowerCase (tags vm)) term))).
Proof.
  unfold defaultSearchFields. cbn. unfold caseName, caseHost.
  destruct (includes (toLowerCase (name vm)) term); [reflexivity|].
  destruct (includes (toLowerCase (host vm)) term); cbn.
  - now rewrite orb_true_r.
  - destruct (existsb _ _); [reflexivity|].
    now destruct (includes (toLowerCase (tags vm)) term).
Qed.

End Default.

End FilterFacts.

(** ** More on signals *)

Module SignalsMore.
Import Text Go vnc notions conditions.

Section Inject.

Variable parseEvent : string -> parsed.

(** A wire event injected during the wait that precedes a directive goes
    to the output queue at the time of the call and leaves the wait as it
    is: control reaches the [Event] label when the delay is over, and the
    delay is taken off the remaining duration. *)
Theorem injected_wire_event_does_not_interrupt
    (rec : option osFile -> string -> world -> result) (fuel : nat) (f : osFile)
    (d : time.Duration) (w : world) (at_ : time.Time) (cmd : string) (ev : Event)
    (Hchan : signalClosed (pb w) = false)
    (Hopen : closed (pb w) = false)
    (Hcalls : calls w = [(at_, CallInject cmd)])
    (Hat : now w <= at_ < now w + Z.max 0 d)
    (Hparse : parseEvent cmd = Parsed (VEvent ev)) :
  exists w',
    waitLoop parseEvent rec (S fuel) f d w = ToEvent w' /\
    now w' = now w + Z.max 0 d /\
    outs w' = (outs w ++ [(at_, ev)])%list /\
    duration (pb w') = add64 (duration (pb w)) (neg64 d) /\
    calls w' = [].
Proof.
  assert (Hmax : Z.max (now w) at_ = at_) by lia.
  eexists. split.
  - cbn [waitLoop]. unfold select_signal. rewrite Hcalls. cbn [await].
    rewrite Hchan. destruct Hat as [_ Hlt]. apply Z.ltb_lt in Hlt. rewrite Hlt.
    cbn [pb set_now perform]. unfold Inject. rewrite Hopen, Hparse.
    cbn [set_pb pb record]. rewrite Hchan. reflexivity.
  - cbn. rewrite Hmax. repeat split; reflexivity.
Qed.

End Inject.

Lemma injected_wire_event_does_not_interrupt_witness :
  exists w',
    waitLoop sample.parseEvent (fun _ _ w => Returned None w) 1 sample.rough
      10000000000
      (set_calls [(3000000000, CallInject "KeyEvent,true,q")] sample.world0)
      = ToEvent w' /\
    now w' = 10000000000 /\
    outs w' = [(3000000000, WireEvent "KeyEvent,true,q")] /\
    duration (pb w') = -10000000000 /\
    calls w' = [].
Proof.
  exact (injected_wire_event_does_not_interrupt sample.parseEvent
           (fun _ _ w => Returned None w) 0 sample.rough 10000000000
           (set_calls [(3000000000, CallInject "KeyEvent,true,q")] sample.world0)
           3000000000 "KeyEvent,true,q" (WireEvent "KeyEvent,true,q")
           eq_refl eq_refl eq_refl ltac:(cbn; lia) eq_refl).
Defined.

End SignalsMore.
